(** * Postman collection runner: the concurrent batch request executor

    A shallow embedding of [index.js] (both variants of the runner that the
    repository carries) and the properties of its authentication resolver,
    request executor and batch coordinator.

    Conventions of the embedding.
    - A JavaScript object used as a dictionary (the header object) is a
      [gmap string string].
    - A value that may be [undefined], a number or a string is a [jsval].
    - Code that may throw returns a [completion]; [console.warn] output is
      collected next to it ([eff]).  [console.log] and [console.error] only
      feed the terminal and are not modelled.
    - [performance.now()] is a reading of a clock that belongs to the world
      the program runs in; readings are integers, in microseconds.
    - The promise of the i-th request settles when the world says so: the
      world carries the order in which the promises settle. *)

From Stdlib Require Import ZArith QArith Ascii String.
From stdpp Require Import gmap strings list fin_maps.

Local Open Scope Z_scope.
Local Open Scope string_scope.
Local Open Scope list_scope.

(** ** JavaScript values, errors and effects *)

Inductive jsval :=
  | JUndefined
  | JNum (n : Z)
  | JStr (s : string).

(** ToBoolean on the values above. *)
Definition truthy (v : jsval) : bool :=
  match v with
  | JUndefined => false
  | JNum n => negb (Z.eqb n 0)
  | JStr s => negb (String.eqb s "")
  end.

(** [a || b]. *)
Definition js_or (a b : jsval) : jsval := if truthy a then a else b.

(** The text a template literal gives for a string that may be missing. *)
Definition template (v : option string) : string :=
  match v with
  | Some s => s
  | None => "undefined"
  end.

(** The [response] member of a transport error. *)
Record error_response := {
  er_status : jsval;
  er_data : jsval;
}.

(** What is thrown: a [TypeError] of the runtime has only a message, an
    error of the transport may carry a status, a response and a code. *)
Record js_error := {
  message : string;
  e_status : jsval;
  e_response : option error_response;
  e_code : jsval;
}.

Definition TypeError (msg : string) : js_error :=
  {| message := msg; e_status := JUndefined; e_response := None;
     e_code := JUndefined |}.

Inductive completion (A : Type) :=
  | Normal (a : A)
  | Throw (e : js_error).
Arguments Normal {A} a.
Arguments Throw {A} e.

(** A computation: how it completes, and what it wrote with
    [console.warn]. *)
Definition eff (A : Type) : Type := completion A * list string.

Definition ret {A} (a : A) : eff A := (Normal a, []).
Definition throw {A} (e : js_error) : eff A := (Throw e, []).
Definition warn (msg : string) : eff unit := (Normal tt, [msg]).

Definition bind {A B} (m : eff A) (k : A -> eff B) : eff B :=
  match m with
  | (Normal a, out) => let '(r, out') := k a in (r, out ++ out')
  | (Throw e, out) => (Throw e, out)
  end.

(** [try { m } catch (error) { h error }]. *)
Definition try_catch {A} (m : eff A) (h : js_error -> eff A) : eff A :=
  match m with
  | (Normal a, out) => (Normal a, out)
  | (Throw e, out) => let '(r, out') := h e in (r, out ++ out')
  end.

Notation "'let*' x ':=' m 'in' k" := (bind m (fun x => k))
  (at level 10, x name, m at level 100, k at level 200).
Notation "'run' m 'in' k" := (bind m (fun _ => k))
  (at level 10, m at level 100, k at level 200).

(** ** The data of a collection *)

(** An entry of an auth parameter list: [{ key, value }]. *)
Record entry := {
  key : string;
  value : option string;
}.

Record basic_credentials := {
  username : option string;
  password : option string;
}.

(** An auth object: its [type] and the members the handlers read.  A member
    that the collection does not give is [None]. *)
Record auth := {
  type : string;
  apikey : option (list entry);
  bearer : option (list entry);
  basic : option basic_credentials;
}.

(** A parsed request, as [parseCollection] builds it. *)
Record request := {
  name : string;
  method : option string;
  url : string;
  headers : list (string * string);
  body : option string;
  req_auth : option auth;
}.

(** ** Strings: base64 and lower case *)

Definition base64_alphabet : list ascii :=
  list_ascii_of_string
    "ABCDEFGHIJKLMNOPQRSTUVWXYZabcdefghijklmnopqrstuvwxyz0123456789+/".

Definition base64_digit (n : N) : ascii :=
  nth (N.to_nat n) base64_alphabet "="%char.

Fixpoint base64_bytes (bs : list N) : list ascii :=
  match bs with
  | [] => []
  | [a] =>
      [base64_digit (a / 4); base64_digit ((a mod 4) * 16);
       "="%char; "="%char]
  | [a; b] =>
      [base64_digit (a / 4); base64_digit ((a mod 4) * 16 + b / 16);
       base64_digit ((b mod 16) * 4); "="%char]
  | a :: b :: c :: rest =>
      base64_digit (a / 4)
      :: base64_digit ((a mod 4) * 16 + b / 16)
      :: base64_digit ((b mod 16) * 4 + c / 64)
      :: base64_digit (c mod 64)
      :: base64_bytes rest
  end%N.

(** [Buffer.from(s).toString('base64')]; a [string] is its own sequence of
    bytes. *)
Definition base64 (s : string) : string :=
  string_of_list_ascii
    (base64_bytes (map N_of_ascii (list_ascii_of_string s))).

Definition lower_ascii (c : ascii) : ascii :=
  let n := N_of_ascii c in
  if ((65 <=? n) && (n <=? 90))%N then ascii_of_N (n + 32) else c.

(** [s.toLowerCase()] on the ASCII letters. *)
Fixpoint toLowerCase (s : string) : string :=
  match s with
  | EmptyString => EmptyString
  | String c s' => String (lower_ascii c) (toLowerCase s')
  end.

(** ** The auth resolver: [applyAuth] and [prepareHeaders]

    The two variants of the runner have the same text for both functions. *)

(** [list.find((entry) => entry.key === k)?.value]. *)
Definition find_value (k : string) (entries : list entry) : option string :=
  match List.find (fun e => String.eqb (key e) k) entries with
  | Some e => value e
  | None => None
  end.

(** ToBoolean of a string that may be missing. *)
Definition present (v : option string) : bool :=
  match v with
  | Some s => negb (String.eqb s "")
  | None => false
  end.

(** The names of the members that every object inherits from
    [Object.prototype]. *)
Definition Object_prototype_members : list string :=
  ["constructor"; "__defineGetter__"; "__defineSetter__"; "hasOwnProperty";
   "__lookupGetter__"; "__lookupSetter__"; "isPrototypeOf";
   "propertyIsEnumerable"; "toString"; "valueOf"; "__proto__";
   "toLocaleString"].

Definition inherited_member (k : string) : bool :=
  existsb (String.eqb k) Object_prototype_members.

(** [obj[k] = v] on a plain object whose own properties are [h] and whose
    value [v] is a string: the name "__proto__" reaches the setter that the
    object inherits, which ignores a value that is neither an object nor
    [null]; every other name becomes an own property. *)
Definition set_property (k v : string) (h : gmap string string)
  : gmap string string :=
  if String.eqb k "__proto__" then h else <[k := v]> h.

Definition apikey_handler (headers : gmap string string) (a : auth)
  : eff (gmap string string) :=
  match apikey a with
  | None =>
      throw (TypeError
               "Cannot read properties of undefined (reading 'find')")
  | Some entries =>
      let keyField := find_value "key" entries in
      let valueField := find_value "value" entries in
      let inField := find_value "in" entries in
      if present keyField && present valueField
         && bool_decide (inField = Some "header")
      then ret (set_property (default "" keyField) (default "" valueField)
                             headers)
      else run warn "Unsupported or missing API key configuration."
           in ret headers
  end.

Definition bearer_handler (headers : gmap string string) (a : auth)
  : eff (gmap string string) :=
  match bearer a with
  | None =>
      throw (TypeError "Cannot read properties of undefined (reading '0')")
  | Some [] =>
      throw (TypeError
               "Cannot read properties of undefined (reading 'value')")
  | Some (first :: _) =>
      ret (<["Authorization" := "Bearer " +:+ template (value first)]> headers)
  end.

Definition basic_handler (headers : gmap string string) (a : auth)
  : eff (gmap string string) :=
  match basic a with
  | None =>
      throw (TypeError
               "Cannot destructure property 'username' of 'basic' as it is undefined.")
  | Some c =>
      ret (<["Authorization" :=
              "Basic " +:+ base64 (template (username c) +:+ ":"
                                   +:+ template (password c))]> headers)
  end.

(** What [authHandlers[t]] does, called as [handler(auth)], when [t] names
    a member that the table inherits: [Object] and [toString] return and
    touch neither the headers nor the console; the value of "__proto__" is
    an object, not a function; each of the other members needs a receiver
    and is called with none.  The messages are those of V8. *)
Definition inherited_handler (t : string) (headers : gmap string string)
    (a : auth) : eff (gmap string string) :=
  if String.eqb t "constructor" || String.eqb t "toString" then ret headers
  else if String.eqb t "__proto__"
  then throw (TypeError "handler is not a function")
  else if String.eqb t "toLocaleString"
  then throw (TypeError
                "Object.prototype.toLocaleString called on null or undefined")
  else throw (TypeError "Cannot convert undefined or null to object").

(** The table of handlers, closed over the header object: its own three
    members, then the members it inherits; [None] is [undefined]. *)
Definition authHandlers (headers : gmap string string) (t : string)
  : option (auth -> eff (gmap string string)) :=
  if String.eqb t "apikey" then Some (apikey_handler headers)
  else if String.eqb t "bearer" then Some (bearer_handler headers)
  else if String.eqb t "basic" then Some (basic_handler headers)
  else if inherited_member t then Some (inherited_handler t headers)
  else None.

Definition applyAuth (headers : gmap string string) (a : option auth)
  : eff (gmap string string) :=
  match a with
  | None => ret headers
  | Some a =>
      match authHandlers headers (type a) with
      | Some handler => handler a
      | None =>
          run warn ("Unsupported auth type: " +:+ type a) in ret headers
      end
  end.

(** [requestHeaders.reduce((acc, { key, value }) => { acc[key] = value; ... }, {})] *)
Definition reduce_headers (requestHeaders : list (string * string))
  : gmap string string :=
  foldl (fun acc kv => set_property kv.1 kv.2 acc) ∅ requestHeaders.

(** [requestAuth || globalAuth]: an auth object is truthy, [null] is not. *)
Definition effective_auth (requestAuth globalAuth : option auth)
  : option auth :=
  match requestAuth with
  | Some r => Some r
  | None => globalAuth
  end.

Definition prepareHeaders (requestHeaders : list (string * string))
    (requestAuth globalAuth : option auth) : eff (gmap string string) :=
  let headers := reduce_headers requestHeaders in
  let a := effective_auth requestAuth globalAuth in
  applyAuth headers a.

(** ** The transport, the clock and the promises *)

(** The object given to [axios]. *)
Record config := {
  c_method : string;
  c_url : string;
  c_headers : gmap string string;
  c_data : option string;
}.

Record response := {
  data : jsval;
  status : jsval;
}.

(** How the promise of a transport call settles. *)
Inductive transport_outcome :=
  | Resolve (r : response)
  | Reject (e : js_error).

(** [await p]: the value of a resolved promise, or its reason thrown. *)
Definition await (p : transport_outcome) : eff response :=
  match p with
  | Resolve r => ret r
  | Reject e => throw e
  end.

(** The places of [executeRequest] at which the clock is looked at: on
    entry, when the transport is called, when the function resumes after
    the transport call resolved, and on entry of the [catch] block.  The
    code reads the clock at some of them only. *)
Inductive point := AtEntry | BeforeSend | AfterSettle | InCatch.

(** The world a batch runs in: what the transport answers to the call of
    the i-th request, what the clock shows during the execution of the i-th
    request, what it shows when the batch starts and after the join, and
    the order in which the promises of the requests settle. *)
Record world := {
  axios : nat -> config -> transport_outcome;
  now : nat -> point -> Z;
  batchStart : Z;
  batchEnd : Z;
  order : list nat;
}.

(** [x.toFixed(2)] of a duration in microseconds, as a number of hundredths
    of a millisecond; a tie is rounded away from zero. *)
Definition toFixed2 (d : Z) : Z := Z.sgn d * ((Z.abs d + 5) / 10).

(** [parseFloat] of a [timeTaken] text (kept as the number of hundredths it
    shows); [None] is NaN, which is what a missing text gives. *)
Definition parseFloat (t : option Z) : option Z := t.

(** [a + b] and [a / n] on numbers that may be NaN. *)
Definition js_add (a b : option Z) : option Z :=
  match a, b with
  | Some x, Some y => Some (x + y)
  | _, _ => None
  end.

Definition js_div (a : option Z) (n : nat) : option Q :=
  match a with
  | Some x => Some (inject_Z x / inject_Z (Z.of_nat n))%Q
  | None => None
  end.

(** [request.body || null] *)
Definition body_or_null (b : option string) : option string :=
  if present b then b else None.

(** [request.method.toLowerCase()] *)
Definition method_toLowerCase (rq : request) : eff string :=
  match method rq with
  | Some m => ret (toLowerCase m)
  | None =>
      throw (TypeError
               "Cannot read properties of undefined (reading 'toLowerCase')")
  end.

(** The state of a settled promise, as [Promise.allSettled] reports it. *)
Inductive settled (A : Type) :=
  | Fulfilled (value : A)
  | Rejected (reason : js_error).
Arguments Fulfilled {A} value.
Arguments Rejected {A} reason.

(** The promise an [async] function returns. *)
Definition promise_of {A} (m : eff A) : settled A :=
  match m.1 with
  | Normal a => Fulfilled a
  | Throw e => Rejected e
  end.

(** The i-th promise settles: its state goes to the i-th slot. *)
Definition settle_slot {A} (promises : list (settled A))
    (slots : list (option (settled A))) (i : nat)
  : list (option (settled A)) :=
  match promises !! i with
  | Some s => <[i := Some s]> slots
  | None => slots
  end.

(** [await Promise.allSettled(promises)] when the promises settle in the
    given order: the array of states once every slot is filled, [None]
    when some promise never settles. *)
Definition allSettled {A} (settle_order : list nat)
    (promises : list (settled A)) : option (list (settled A)) :=
  mapM id (foldl (settle_slot promises)
                 (replicate (length promises) None) settle_order).

(** What the calls that started the computations [ms] wrote. *)
Definition written {A} (ms : list (eff A)) : eff unit :=
  (Normal tt, concat (map snd ms)).

(** [array.forEach((x, index) => ...)] with the state the callback updates
    threaded through. *)
Fixpoint forEach {A St} (f : St -> A -> nat -> eff St) (l : list A)
    (index : nat) (s : St) : eff St :=
  match l with
  | [] => ret s
  | x :: l' => let* s' := f s x index in forEach f l' (S index) s'
  end.

(** ** The first variant of the runner *)

Module V1.

(** The object [executeRequest] returns. *)
Record result := {
  res_name : string;
  res_status : string;
  res_data : jsval;
  res_error : jsval;
  res_timeTaken : option Z;
}.

(** The [try] block of [executeRequest]. *)
Definition attempt (w : world) (i : nat) (rq : request)
    (globalAuth : option auth) (startTime : Z) : eff result :=
  let* hdrs := prepareHeaders (headers rq) (req_auth rq) globalAuth in
  let* m := method_toLowerCase rq in
  let* response :=
    await (axios w i {| c_method := m; c_url := url rq;
                        c_headers := hdrs;
                        c_data := body_or_null (body rq) |}) in
  let endTime := now w i AfterSettle in
  ret {| res_name := name rq; res_status := "success";
         res_data := data response; res_error := JUndefined;
         res_timeTaken := Some (toFixed2 (endTime - startTime)) |}.

(** The object the [catch] block builds. *)
Definition error_result (w : world) (i : nat) (rq : request)
    (startTime : Z) (error : js_error) : result :=
  let endTime := now w i InCatch in
  {| res_name := name rq; res_status := "error";
     res_data := JUndefined; res_error := JStr (message error);
     res_timeTaken := Some (toFixed2 (endTime - startTime)) |}.

(** The [catch] block of [executeRequest]. *)
Definition recover (w : world) (i : nat) (rq : request) (startTime : Z)
    (error : js_error) : eff result :=
  ret (error_result w i rq startTime error).

Definition executeRequest (w : world) (i : nat) (rq : request)
    (globalAuth : option auth) : eff result :=
  let startTime := now w i AtEntry in
  try_catch (attempt w i rq globalAuth startTime)
            (recover w i rq startTime).

(** A call of [logRequestResult]: [(status, name, timeTaken, data)]. *)
Record entry := {
  log_status : string;
  log_name : string;
  log_timeTaken : option Z;
  log_data : jsval;
}.

(** The counters of [runConcurrentRequests] and what it logged so far. *)
Record counters := {
  c_successCount : nat;
  c_failureCount : nat;
  c_totalTime : option Z;
  c_logged : list entry;
}.

(** What a run hands to the terminal: the logged results and the
    arguments of [logSummaryReport]. *)
Record report := {
  results : list entry;
  totalRequests : nat;
  successCount : nat;
  failureCount : nat;
  totalTime : Z;
  avgTime : option Q;
}.

(** The callback of [results.forEach]. *)
Definition count_result (requests : list request) (c : counters)
    (r : settled result) (index : nat) : eff counters :=
  match requests !! index with
  | None =>
      throw (TypeError
               "Cannot destructure property 'name' of 'requests[index]' as it is undefined.")
  | Some rq =>
      match r with
      | Fulfilled v =>
          ret {| c_successCount := S (c_successCount c);
                 c_failureCount := c_failureCount c;
                 c_totalTime :=
                   js_add (c_totalTime c) (parseFloat (res_timeTaken v));
                 c_logged :=
                   c_logged c ++
                   [{| log_status := "success"; log_name := name rq;
                       log_timeTaken := res_timeTaken v;
                       log_data := res_data v |}] |}
      | Rejected reason =>
          ret {| c_successCount := c_successCount c;
                 c_failureCount := S (c_failureCount c);
                 c_totalTime := c_totalTime c;
                 c_logged :=
                   c_logged c ++
                   [{| log_status := "error"; log_name := name rq;
                       log_timeTaken := None; log_data := JUndefined |}] |}
      end
  end.

Definition runConcurrentRequests (w : world) (requests : list request)
    (globalAuth : option auth) : option (eff report) :=
  let startTime := batchStart w in
  let started := imap (fun i rq => executeRequest w i rq globalAuth)
                      requests in
  let requestPromises := map promise_of started in
  match allSettled (order w) requestPromises with
  | None => None
  | Some settled_results =>
      let endTime := batchEnd w in
      Some
        (run written started in
         let* c :=
           forEach (count_result requests) settled_results 0%nat
             {| c_successCount := 0; c_failureCount := 0;
                c_totalTime := Some 0; c_logged := [] |} in
         let avg :=
           if (0 <? c_successCount c)%nat
           then js_div (c_totalTime c) (c_successCount c)
           else Some 0%Q in
         ret {| results := c_logged c;
                totalRequests := length requests;
                successCount := c_successCount c;
                failureCount := c_failureCount c;
                totalTime := endTime - startTime;
                avgTime := avg |})
  end.

(** *** Notions the properties of this variant are stated with *)

(** The value the promise of the i-th request is fulfilled with. *)
Definition settled_value (w : world) (i : nat) (rq : request)
    (globalAuth : option auth) : result :=
  match (attempt w i rq globalAuth (now w i AtEntry)).1 with
  | Normal r => r
  | Throw e => error_result w i rq (now w i AtEntry) e
  end.

(** The line logged for a request whose promise is fulfilled. *)
Definition entry_of (rq : request) (v : result) : entry :=
  {| log_status := "success"; log_name := name rq;
     log_timeTaken := res_timeTaken v; log_data := res_data v |}.

(** The report of a batch, in closed form. *)
Definition report_of (w : world) (requests : list request)
    (globalAuth : option auth) : report :=
  let vs := imap (λ i rq, settled_value w i rq globalAuth) requests in
  let total := foldl js_add (Some 0) (res_timeTaken <$> vs) in
  {| results := zip_with entry_of requests vs;
     totalRequests := length requests;
     successCount := length vs;
     failureCount := 0;
     totalTime := batchEnd w - batchStart w;
     avgTime := if (0 <? length vs)%nat then js_div total (length vs)
                else Some 0%Q |}.

End V1.

(** ** The second variant of the runner *)

Module V2.

Definition COMMON_HEADERS : gmap string string :=
  list_to_map
    [("Content-Type", "application/json");
     ("Accept", "*/*");
     ("Cache-Control", "no-cache");
     ("Accept-Encoding", "gzip, deflate, br");
     ("Connection", "keep-alive")].

(** The object [executeRequest] returns; the error object has no
    [timeTaken]. *)
Record result := {
  res_name : string;
  res_status : string;
  res_data : jsval;
  res_error : jsval;
  res_statusCode : jsval;
  res_timeTaken : option Z;
}.

(** [error?.status || error?.response?.status || error?.code] *)
Definition error_statusCode (error : js_error) : jsval :=
  js_or (js_or (e_status error)
               (match e_response error with
                | Some r => er_status r
                | None => JUndefined
                end))
        (e_code error).

(** [error?.response?.data] *)
Definition error_data (error : js_error) : jsval :=
  match e_response error with
  | Some r => er_data r
  | None => JUndefined
  end.

(** The [try] block of [executeRequest]. *)
Definition attempt (w : world) (i : nat) (rq : request)
    (globalAuth : option auth) (startTime : Z) : eff result :=
  let* hdrs := prepareHeaders (headers rq) (req_auth rq) globalAuth in
  let* m := method_toLowerCase rq in
  let* response :=
    await (axios w i {| c_method := m; c_url := url rq;
                        c_headers := hdrs ∪ COMMON_HEADERS;
                        c_data := body_or_null (body rq) |}) in
  let endTime := now w i AfterSettle in
  ret {| res_name := name rq; res_status := "success";
         res_data := data response; res_error := JUndefined;
         res_statusCode := status response;
         res_timeTaken := Some (toFixed2 (endTime - startTime)) |}.

(** The object the [catch] block builds. *)
Definition error_result (rq : request) (error : js_error) : result :=
  {| res_name := name rq; res_status := "error";
     res_data := error_data error;
     res_error := JStr (message error);
     res_statusCode := error_statusCode error;
     res_timeTaken := None |}.

(** The [catch] block of [executeRequest]. *)
Definition recover (rq : request) (error : js_error) : eff result :=
  ret (error_result rq error).

Definition executeRequest (w : world) (i : nat) (rq : request)
    (globalAuth : option auth) : eff result :=
  let startTime := now w i AtEntry in
  try_catch (attempt w i rq globalAuth startTime) (recover rq).

(** An element of [responseSummary]. *)
Record entry := {
  sum_status : string;
  sum_statusCode : jsval;
  sum_name : string;
  sum_timeTaken : option Z;
  sum_data : jsval;
}.

Record counters := {
  c_successCount : nat;
  c_failureCount : nat;
  c_totalTime : option Z;
  c_responseSummary : list entry;
}.

(** What a run hands to the terminal: [responseSummary], logged in its
    order, and the arguments of [logSummaryReport]. *)
Record report := {
  results : list entry;
  totalRequests : nat;
  successCount : nat;
  failureCount : nat;
  totalTime : Z;
  avgTime : option Q;
}.

(** The callback of [results.forEach]. *)
Definition count_result (requests : list request) (c : counters)
    (r : settled result) (index : nat) : eff counters :=
  match requests !! index with
  | None =>
      throw (TypeError
               "Cannot destructure property 'name' of 'requests[index]' as it is undefined.")
  | Some rq =>
      match r with
      | Rejected _ =>
          throw (TypeError
                   "Cannot read properties of undefined (reading 'status')")
      | Fulfilled v =>
          if String.eqb (res_status v) "success" then
            ret {| c_successCount := S (c_successCount c);
                   c_failureCount := c_failureCount c;
                   c_totalTime :=
                     js_add (c_totalTime c)
                            (parseFloat (res_timeTaken v));
                   c_responseSummary :=
                     c_responseSummary c ++
                     [{| sum_status := "success";
                         sum_statusCode := res_statusCode v;
                         sum_name := name rq;
                         sum_timeTaken := res_timeTaken v;
                         sum_data := res_data v |}] |}
          else
            ret {| c_successCount := c_successCount c;
                   c_failureCount := S (c_failureCount c);
                   c_totalTime := c_totalTime c;
                   c_responseSummary :=
                     c_responseSummary c ++
                     [{| sum_status := "error";
                         sum_statusCode := res_statusCode v;
                         sum_name := name rq;
                         sum_timeTaken := None;
                         sum_data := res_data v |}] |}
      end
  end.

Definition runConcurrentRequests (w : world) (requests : list request)
    (globalAuth : option auth) : option (eff report) :=
  let startTime := batchStart w in
  let started := imap (fun i rq => executeRequest w i rq globalAuth)
                      requests in
  let requestPromises := map promise_of started in
  match allSettled (order w) requestPromises with
  | None => None
  | Some settled_results =>
      let endTime := batchEnd w in
      Some
        (run written started in
         let* c :=
           forEach (count_result requests) settled_results 0%nat
             {| c_successCount := 0; c_failureCount := 0;
                c_totalTime := Some 0; c_responseSummary := [] |} in
         let avg :=
           if (0 <? c_successCount c)%nat
           then js_div (c_totalTime c) (c_successCount c)
           else Some 0%Q in
         ret {| results := c_responseSummary c;
                totalRequests := length requests;
                successCount := c_successCount c;
                failureCount := c_failureCount c;
                totalTime := endTime - startTime;
                avgTime := avg |})
  end.

(** *** Notions the properties of this variant are stated with *)

(** The value the promise of the i-th request is fulfilled with. *)
Definition settled_value (w : world) (i : nat) (rq : request)
    (globalAuth : option auth) : result :=
  match (attempt w i rq globalAuth (now w i AtEntry)).1 with
  | Normal r => r
  | Throw e => error_result rq e
  end.

Definition is_success (v : result) : bool :=
  String.eqb (res_status v) "success".

(** The element of [responseSummary] for a request and the value of its
    promise. *)
Definition entry_of (rq : request) (v : result) : entry :=
  if is_success v then
    {| sum_status := "success"; sum_statusCode := res_statusCode v;
       sum_name := name rq; sum_timeTaken := res_timeTaken v;
       sum_data := res_data v |}
  else
    {| sum_status := "error"; sum_statusCode := res_statusCode v;
       sum_name := name rq; sum_timeTaken := None;
       sum_data := res_data v |}.

(** The report of a batch, in closed form. *)
Definition report_of (w : world) (requests : list request)
    (globalAuth : option auth) : report :=
  let vs := imap (λ i rq, settled_value w i rq globalAuth) requests in
  let ok := filter (λ v, is_success v) vs in
  let total := foldl js_add (Some 0) (res_timeTaken <$> ok) in
  {| results := zip_with entry_of requests vs;
     totalRequests := length requests;
     successCount := length ok;
     failureCount := length (filter (λ v, ¬ is_success v) vs);
     totalTime := batchEnd w - batchStart w;
     avgTime := if (0 <? length ok)%nat then js_div total (length ok)
                else Some 0%Q |}.

(** The elapsed times of the results reported as a success. *)
Definition success_times (es : list entry) : list Z :=
  omap sum_timeTaken
       (filter (λ e, String.eqb (sum_status e) "success" = true) es).

End V2.

(** ** Notions the properties are stated with *)

(** Every one of the [n] promises of a batch settles at some time. *)
Definition every_promise_settles (settle_order : list nat) (n : nat) : Prop :=
  ∀ i, (i < n)%nat → i ∈ settle_order.

(** The slots hold nothing but the states of their own promises. *)
Definition slots_sound {A} (promises : list (settled A))
    (slots : list (option (settled A))) : Prop :=
  length slots = length promises ∧
  ∀ j s, slots !! j = Some (Some s) → promises !! j = Some s.

(** The same world with another order of settlement. *)
Definition with_order (w : world) (settle_order : list nat) : world :=
  {| axios := axios w; now := now w; batchStart := batchStart w;
     batchEnd := batchEnd w; order := settle_order |}.

Definition sum_Z (ts : list Z) : Z := foldr Z.add 0 ts.

(** The arithmetic mean, 0 for no number at all. *)
Definition mean (ts : list Z) : Q :=
  match ts with
  | [] => 0%Q
  | _ => (inject_Z (sum_Z ts) / inject_Z (Z.of_nat (length ts)))%Q
  end.

(** ** A batch of three requests, the second of which meets a network error *)

Definition network_error : js_error :=
  {| message := "Network Error"; e_status := JUndefined;
     e_response := None; e_code := JStr "ERR_NETWORK" |}.

Definition user_details (n : string) : response :=
  {| data := JStr ("User " +:+ n +:+ " Details"); status := JNum 200 |}.

Definition get_request (n u : string) : request :=
  {| name := n; method := Some "GET"; url := u; headers := [];
     body := None; req_auth := None |}.

Definition batch3 : list request :=
  [get_request "Request 1" "https://api.example.com/users/1";
   get_request "Request 2" "https://unreachable.example.com/";
   get_request "Request 3" "https://api.example.com/users/2"].

(** The transport call of the second request is rejected, the other calls
    are answered; the third request settles first and the first one last.
    The clock runs on between the entry of [executeRequest] and the call of
    the transport. *)
Definition world3 : world :=
  {| axios := λ i _,
       match i with
       | 0%nat => Resolve (user_details "1")
       | 1%nat => Reject network_error
       | _ => Resolve (user_details "2")
       end;
     now := λ i p,
       match p with
       | AtEntry => 100 * Z.of_nat i
       | BeforeSend => 100 * Z.of_nat i + 40
       | AfterSettle =>
           match i with 0%nat => 123450 | _ => 100 * Z.of_nat i + 65120 end
       | InCatch => 100 * Z.of_nat i + 98230
       end;
     batchStart := 0;
     batchEnd := 123500;
     order := [2; 1; 0]%nat |}.

(** ** Auth objects to try the resolver on *)

Definition param (k v : string) : entry := {| key := k; value := Some v |}.

Definition apikey_auth (params : option (list entry)) : auth :=
  {| type := "apikey"; apikey := params; bearer := None; basic := None |}.

Definition bearer_auth (params : option (list entry)) : auth :=
  {| type := "bearer"; apikey := None; bearer := params; basic := None |}.

Definition basic_auth (u p : string) : auth :=
  {| type := "basic"; apikey := None; bearer := None;
     basic := Some {| username := Some u; password := Some p |} |}.

Definition with_auth (rq : request) (a : auth) : request :=
  {| name := name rq; method := method rq; url := url rq;
     headers := headers rq; body := body rq; req_auth := Some a |}.

(** An ApiKey parameter list that names a header and a value for it: the
    three fields are there, name and value are not empty, and the key goes
    into a header. *)
Definition apikey_valid (es : list entry) (kn kv : string) : Prop :=
  find_value "key" es = Some kn ∧ kn ≠ "" ∧
  find_value "value" es = Some kv ∧ kv ≠ "" ∧
  find_value "in" es = Some "header".

Definition apikey_warning : string :=
  "Unsupported or missing API key configuration.".

(** ** Placeholders (second variant): [replacePlaceholders]

    The text of a collection is a [string], a sequence of bytes: a
    character outside ASCII is the sequence of bytes that encodes it. *)

(** The text starts with a line terminator, which [.] does not match: line
    feed, carriage return, or the three bytes of U+2028 or of U+2029. *)
Definition line_terminator_at (s : string) : bool :=
  match s with
  | String c s' =>
      if Ascii.eqb c "010" || Ascii.eqb c "013" then true
      else
        match s' with
        | String c2 (String c3 _) =>
            Ascii.eqb c "226" && Ascii.eqb c2 "128"
            && (Ascii.eqb c3 "168" || Ascii.eqb c3 "169")
        | _ => false
        end
  | EmptyString => false
  end.

(** The text after a leading ["{{"]. *)
Definition opens (s : string) : option string :=
  match s with
  | String c1 (String c2 rest) =>
      if Ascii.eqb c1 "{" && Ascii.eqb c2 "{" then Some rest else None
  | _ => None
  end.

(** The text after a leading ["}}"]. *)
Definition closes (s : string) : option string :=
  match s with
  | String c1 (String c2 rest) =>
      if Ascii.eqb c1 "}" && Ascii.eqb c2 "}" then Some rest else None
  | _ => None
  end.

(** [(.*?)}}] on the text after ["{{"]: the shortest key, free of line
    terminators, that is followed by ["}}"], and the text after that. *)
Fixpoint scan_key (s : string) : option (string * string) :=
  match closes s with
  | Some rest => Some (EmptyString, rest)
  | None =>
      if line_terminator_at s then None
      else
        match s with
        | String c s' =>
            match scan_key s' with
            | Some (k, rest) => Some (String c k, rest)
            | None => None
            end
        | EmptyString => None
        end
  end.

(** A match of [/{{(.*?)}}/] at the very start of the text: the key and the
    text after the match. *)
Definition placeholder_at (s : string) : option (string * string) :=
  match opens s with
  | Some r => scan_key r
  | None => None
  end.

(** The text that a member which [process.env] inherits from
    [Object.prototype] gives in the place of a placeholder: the source text
    of a built-in function, and ["[object Object]"] for the prototype
    itself, the value of "__proto__". *)
Definition inherited_text (k : string) : option string :=
  if String.eqb k "__proto__" then Some "[object Object]"
  else if String.eqb k "constructor"
  then Some "function Object() { [native code] }"
  else if inherited_member k
  then Some ("function " +:+ k +:+ "() { [native code] }")
  else None.

(** [process.env[k]], as far as the callback tells values apart: the
    variable of that name when the environment [env] has one, otherwise the
    member of that name that [process.env] inherits, otherwise
    [undefined]. *)
Definition env_value (env : gmap string string) (k : string)
  : option string :=
  match env !! k with
  | Some v => Some v
  | None => inherited_text k
  end.

(** The callback of [replace]: the value of [process.env[key]], or the
    placeholder itself, with a warning, when that value is [undefined] or
    empty. *)
Definition substitute (env : gmap string string) (k : string) : eff string :=
  let v := env_value env k in
  run (if present v then ret tt
       else warn ("Environment variable not found: " +:+ k)) in
  ret (if present v then default "" v else "{{" +:+ k +:+ "}}").

(** [s.replace(/{{(.*?)}}/g, ...)], from left to right; every step takes at
    least one character off the text, so that the length of the text is
    fuel enough. *)
Fixpoint replace_from (fuel : nat) (env : gmap string string) (s : string)
  : eff string :=
  match fuel with
  | O => ret s
  | S fuel' =>
      match placeholder_at s with
      | Some (k, rest) =>
          let* v := substitute env k in
          let* out := replace_from fuel' env rest in
          ret (v +:+ out)
      | None =>
          match s with
          | EmptyString => ret EmptyString
          | String c s' =>
              let* out := replace_from fuel' env s' in
              ret (String c out)
          end
      end
  end.

Definition replacePlaceholders (env : gmap string string)
    (collectionRawString : string) : eff string :=
  replace_from (String.length collectionRawString) env collectionRawString.

(** ** The collection: [parseCollection]

    The two variants have the same text, but for the placeholders that the
    second one replaces in the text of the file before [JSON.parse].  The
    model starts from the parsed object. *)

(** [request.url]: a string, or an object with a [raw] member. *)
Inductive url_t :=
  | UrlString (s : string)
  | UrlObject (raw : option string).

(** [request.body]: an object with a [raw] member. *)
Record request_body := {
  body_raw : option string;
}.

(** The [request] member of an item. *)
Record item_request := {
  ir_method : option string;
  ir_url : option url_t;
  ir_header : option (list (string * string));
  ir_body : option request_body;
  ir_auth : option auth;
}.

(** An item of a collection: a request, a folder of items, or both. *)
#[local] Unset Elimination Schemes.
Inductive item :=
  | Item (item_name : string) (item_req : option item_request)
         (item_item : option (list item)).
#[local] Set Elimination Schemes.

Record collection_info := {
  info_name : option string;
}.

(** The object [JSON.parse] gives for the file of a collection. *)
Record collection := {
  info : option collection_info;
  items : option (list item);
  collection_auth : option auth;
}.

(** An element of [requests], as [extractRequests] pushes it. *)
Record parsed_request := {
  pr_name : string;
  pr_method : option string;
  pr_url : url_t;
  pr_headers : list (string * string);
  pr_body : option string;
  pr_auth : option auth;
}.

Record global_info := {
  gi_name : option string;
  gi_auth : option auth;
}.

(** [url.raw || url] *)
Definition raw_or_url (u : url_t) : url_t :=
  match u with
  | UrlString s => UrlString s
  | UrlObject r => if present r then UrlString (default "" r) else u
  end.

(** The object literal pushed for an item with a request; reading [raw]
    off a missing [url] throws. *)
Definition request_of (n : string) (r : item_request) : eff parsed_request :=
  match ir_url r with
  | None =>
      throw (TypeError
               "Cannot read properties of undefined (reading 'raw')")
  | Some u =>
      ret {| pr_name := n; pr_method := ir_method r;
             pr_url := raw_or_url u;
             pr_headers := default [] (ir_header r);
             pr_body := match ir_body r with
                        | Some b => body_raw b
                        | None => None
                        end;
             pr_auth := ir_auth r |}
  end.

(** The callback of [items.forEach] in [extractRequests], with the array
    [requests] it pushes to threaded through. *)
Fixpoint extract_item (it : item) (requests : list parsed_request)
  : eff (list parsed_request) :=
  match it with
  | Item n rq sub =>
      let* requests1 :=
        match rq with
        | Some r => let* p := request_of n r in ret (requests ++ [p])
        | None => ret requests
        end in
      match sub with
      | Some l =>
          (fix each (l : list item) (acc : list parsed_request)
             : eff (list parsed_request) :=
             match l with
             | [] => ret acc
             | x :: l' => let* acc' := extract_item x acc in each l' acc'
             end) l requests1
      | None => ret requests1
      end
  end.

Fixpoint extractRequests (l : list item) (requests : list parsed_request)
  : eff (list parsed_request) :=
  match l with
  | [] => ret requests
  | x :: l' =>
      let* requests' := extract_item x requests in
      extractRequests l' requests'
  end.

(** [new Error("Invalid Postman collection format.")] *)
Definition invalid_format : js_error :=
  {| message := "Invalid Postman collection format.";
     e_status := JUndefined; e_response := None; e_code := JUndefined |}.

Definition parseCollection (c : collection)
  : eff (global_info * list parsed_request) :=
  match info c, items c with
  | Some i, Some l =>
      let globalInfo := {| gi_name := info_name i;
                           gi_auth := collection_auth c |} in
      let* requests := extractRequests l [] in
      ret (globalInfo, requests)
  | _, _ => throw invalid_format
  end.

(** *** Notions the properties of the placeholders are stated with *)

(** The text [p] occurs in the text [s]. *)
Definition occurs (p s : string) : Prop :=
  ∃ pre post, s = pre +:+ p +:+ post.

(** No character of the text is an opening brace. *)
Fixpoint no_opening_brace (s : string) : bool :=
  match s with
  | EmptyString => true
  | String c s' => negb (Ascii.eqb c "{") && no_opening_brace s'
  end.

(** A key with no closing brace, no line feed, no carriage return and no
    byte that starts a character of three bytes. *)
Fixpoint plain_key (s : string) : bool :=
  match s with
  | EmptyString => true
  | String c s' =>
      negb (Ascii.eqb c "}") && negb (Ascii.eqb c "010")
      && negb (Ascii.eqb c "013") && negb (Ascii.eqb c "226")
      && plain_key s'
  end.

(** The keys of the placeholders of a text, from left to right: the
    matches of [/{{(.*?)}}/g]. *)
Fixpoint keys_from (fuel : nat) (s : string) : list string :=
  match fuel with
  | O => []
  | S fuel' =>
      match placeholder_at s with
      | Some (k, rest) => k :: keys_from fuel' rest
      | None =>
          match s with
          | EmptyString => []
          | String _ s' => keys_from fuel' s'
          end
      end
  end.

Definition placeholder_keys (s : string) : list string :=
  keys_from (String.length s) s.

Definition not_found (k : string) : string :=
  "Environment variable not found: " +:+ k.

(** *** Notions the properties of the collection are stated with *)

(** The items of a tree that carry a request, with their names, in the
    order of the document: an item before the items of its folder. *)
Fixpoint requests_of_item (it : item) : list (string * item_request) :=
  match it with
  | Item n rq sub =>
      match rq with Some r => [(n, r)] | None => [] end
      ++ match sub with
         | Some l =>
             (fix each (l : list item) : list (string * item_request) :=
                match l with
                | [] => []
                | x :: l' => requests_of_item x ++ each l'
                end) l
         | None => []
         end
  end.

Fixpoint requests_in (l : list item) : list (string * item_request) :=
  match l with
  | [] => []
  | x :: l' => requests_of_item x ++ requests_in l'
  end.

(** Pushing the requests of a list one after the other. *)
Fixpoint push_all (ps : list (string * item_request))
    (requests : list parsed_request) : eff (list parsed_request) :=
  match ps with
  | [] => ret requests
  | (n, r) :: ps' =>
      let* p := request_of n r in push_all ps' (requests ++ [p])
  end.

(** *** A collection with folders *)

Definition get_item (n u : string) (sub : option (list item)) : item :=
  Item n
       (Some {| ir_method := Some "GET"; ir_url := Some (UrlObject (Some u));
                ir_header := None; ir_body := None; ir_auth := None |})
       sub.

(** An item whose request has no url. *)
Definition broken_item (n : string) : item :=
  Item n
       (Some {| ir_method := Some "GET"; ir_url := None;
                ir_header := None; ir_body := None; ir_auth := None |})
       None.

Definition sample_items : list item :=
  [get_item "List users" "https://api.example.com/users" None;
   Item "Admin" None
        (Some [get_item "Get admin" "https://api.example.com/admin"
                        (Some [get_item "Get audit log"
                                        "https://api.example.com/audit" None]);
               Item "Empty folder" None (Some [])]);
   get_item "Health" "https://api.example.com/health" None].

Definition sample_collection : collection :=
  {| info := Some {| info_name := Some "Testing" |};
     items := Some sample_items;
     collection_auth := Some (bearer_auth (Some [param "token" "abc"])) |}.

Definition broken_collection : collection :=
  {| info := Some {| info_name := Some "Testing" |};
     items := Some [get_item "List users" "https://api.example.com/users" None;
                    Item "Admin" None (Some [broken_item "No url"])];
     collection_auth := None |}.

(** *** The batch of three requests in a world where only the first
    transport call is answered, the requests settling in another order *)

Definition world3_down : world :=
  {| axios := λ i _,
       match i with
       | 0%nat => Resolve (user_details "1")
       | _ => Reject network_error
       end;
     now := now world3;
     batchStart := 0;
     batchEnd := 200000;
     order := [0; 1; 2]%nat |}.

(** *** Reading base64 back *)

(** The place of a character in a list. *)
Fixpoint index_of (c : ascii) (l : list ascii) : option N :=
  match l with
  | [] => None
  | x :: l' => if Ascii.eqb x c then Some 0%N else N.succ <$> index_of c l'
  end.

(** The six bits a character of the alphabet stands for. *)
Definition base64_value (c : ascii) : option N := index_of c base64_alphabet.

(** The bytes that four characters at a time stand for; ["="] pads the last
    four. *)
Fixpoint base64_decode_chars (cs : list ascii) : option (list N) :=
  match cs with
  | [] => Some []
  | c1 :: c2 :: c3 :: c4 :: rest =>
      s1 ← base64_value c1;
      s2 ← base64_value c2;
      if Ascii.eqb c3 "=" then
        match rest with
        | [] => if Ascii.eqb c4 "=" then Some [s1 * 4 + s2 / 16]%N else None
        | _ => None
        end
      else
        s3 ← base64_value c3;
        if Ascii.eqb c4 "=" then
          match rest with
          | [] => Some [s1 * 4 + s2 / 16; (s2 mod 16) * 16 + s3 / 4]%N
          | _ => None
          end
        else
          s4 ← base64_value c4;
          bs ← base64_decode_chars rest;
          Some ((s1 * 4 + s2 / 16) :: ((s2 mod 16) * 16 + s3 / 4)
                :: ((s3 mod 4) * 64 + s4) :: bs)%N
  | _ => None
  end.

Definition base64_decode (s : string) : option string :=
  (λ bs, string_of_list_ascii (map ascii_of_N bs))
    <$> base64_decode_chars (list_ascii_of_string s).

(** * Properties *)

(** ** [Promise.allSettled] keeps the order of the promises *)

Section promises.
Context {A : Type}.
Implicit Types (promises : list (settled A)) (slots : list (option (settled A))).

Lemma settle_slot_sound promises slots i :
  slots_sound promises slots → slots_sound promises (settle_slot promises slots i).
Proof.
  intros [Hlen Hs]. unfold settle_slot.
  destruct (promises !! i) as [s|] eqn:Hi; [|by split].
  split; [by rewrite length_insert|].
  intros j s' Hj. destruct (decide (i = j)) as [->|Hne].
  - rewrite list_lookup_insert_eq in Hj; [congruence|].
    rewrite Hlen. by eapply lookup_lt_Some.
  - rewrite list_lookup_insert_ne in Hj by done. by apply Hs.
Qed.

Lemma settle_slots_sound promises settle_order slots :
  slots_sound promises slots →
  slots_sound promises (foldl (settle_slot promises) slots settle_order).
Proof.
  revert slots. induction settle_order as [|i o IH]; intros slots H; [done|].
  simpl. by apply IH, settle_slot_sound.
Qed.

Lemma replicate_None_sound promises :
  slots_sound promises (replicate (length promises) None).
Proof.
  split; [by rewrite length_replicate|].
  intros j s Hj. apply lookup_replicate in Hj as [? _]. done.
Qed.

(** A slot, once filled, stays filled. *)
Lemma settle_slot_keeps promises slots i j s :
  slots_sound promises slots →
  slots !! j = Some (Some s) →
  settle_slot promises slots i !! j = Some (Some s).
Proof.
  intros [Hlen Hs] Hj. unfold settle_slot.
  destruct (promises !! i) as [s'|] eqn:Hi; [|done].
  destruct (decide (i = j)) as [->|Hne].
  - rewrite list_lookup_insert_eq by (by eapply lookup_lt_Some).
    apply Hs in Hj. congruence.
  - by rewrite list_lookup_insert_ne.
Qed.

Lemma settle_slots_keep promises settle_order slots j s :
  slots_sound promises slots →
  slots !! j = Some (Some s) →
  foldl (settle_slot promises) slots settle_order !! j = Some (Some s).
Proof.
  revert slots. induction settle_order as [|i o IH]; intros slots H Hj; [done|].
  simpl. apply IH; [by apply settle_slot_sound|by apply settle_slot_keeps].
Qed.

Lemma settle_slots_fill promises settle_order slots j s :
  slots_sound promises slots →
  j ∈ settle_order → promises !! j = Some s →
  foldl (settle_slot promises) slots settle_order !! j = Some (Some s).
Proof.
  revert slots. induction settle_order as [|i o IH]; intros slots H Hin Hj.
  - by apply elem_of_nil in Hin.
  - simpl. apply elem_of_cons in Hin as [->|Hin].
    + apply settle_slots_keep; [by apply settle_slot_sound|].
      unfold settle_slot. rewrite Hj.
      apply list_lookup_insert_eq. destruct H as [Hl _].
      rewrite Hl. eapply lookup_lt_Some. exact Hj.
    + apply IH; [by apply settle_slot_sound|done..].
Qed.

(** Whatever the order in which the promises settle, the array that
    [Promise.allSettled] resolves with has the states in the order of the
    promises. *)
Lemma allSettled_inv settle_order promises rs :
  allSettled settle_order promises = Some rs → rs = promises.
Proof.
  unfold allSettled. intros H%mapM_Some_1.
  pose proof (settle_slots_sound promises settle_order _
                (replicate_None_sound promises)) as [Hlen Hs].
  apply list_eq_same_length with (length promises); [done| |].
  - by rewrite <-(Forall2_length _ _ _ H).
  - intros j x y Hj Hx Hy.
    destruct (Forall2_lookup_r _ _ _ _ _ H Hx) as (o & Ho & Hid).
    simpl in Hid. subst o. apply Hs in Ho. congruence.
Qed.

Lemma allSettled_complete settle_order promises :
  every_promise_settles settle_order (length promises) →
  allSettled settle_order promises = Some promises.
Proof.
  intros Hall. unfold allSettled. apply mapM_Some_2.
  pose proof (settle_slots_sound promises settle_order _
                (replicate_None_sound promises)) as [Hlen Hs].
  apply Forall2_same_length_lookup_2; [done|].
  intros j o s Ho Hj. simpl.
  rewrite (settle_slots_fill promises settle_order _ j s) in Ho;
    [congruence|apply replicate_None_sound| |done].
  apply Hall. by eapply lookup_lt_Some.
Qed.

Lemma allSettled_pending settle_order promises :
  allSettled settle_order promises = None →
  ¬ every_promise_settles settle_order (length promises).
Proof. intros H Hall. by rewrite allSettled_complete in H. Qed.
End promises.

(** ** The request executor always returns a result *)

Lemma V1_executeRequest_value w i rq ga :
  ∃ out, V1.executeRequest w i rq ga = (Normal (V1.settled_value w i rq ga), out).
Proof.
  unfold V1.executeRequest, V1.settled_value, try_catch, V1.recover.
  destruct (V1.attempt w i rq ga (now w i AtEntry)) as [[r|e] out]; simpl; eauto.
Qed.

Lemma V2_executeRequest_value w i rq ga :
  ∃ out, V2.executeRequest w i rq ga = (Normal (V2.settled_value w i rq ga), out).
Proof.
  unfold V2.executeRequest, V2.settled_value, try_catch, V2.recover.
  destruct (V2.attempt w i rq ga (now w i AtEntry)) as [[r|e] out]; simpl; eauto.
Qed.

Lemma V1_promises w requests ga :
  map promise_of (imap (λ i rq, V1.executeRequest w i rq ga) requests)
  = Fulfilled <$> imap (λ i rq, V1.settled_value w i rq ga) requests.
Proof.
  apply list_eq. intros j.
  rewrite !list_lookup_fmap, !list_lookup_imap.
  destruct (requests !! j) as [rq|]; [|done]. simpl.
  destruct (V1_executeRequest_value w j rq ga) as [out ->]. done.
Qed.

Lemma V2_promises w requests ga :
  map promise_of (imap (λ i rq, V2.executeRequest w i rq ga) requests)
  = Fulfilled <$> imap (λ i rq, V2.settled_value w i rq ga) requests.
Proof.
  apply list_eq. intros j.
  rewrite !list_lookup_fmap, !list_lookup_imap.
  destruct (requests !! j) as [rq|]; [|done]. simpl.
  destruct (V2_executeRequest_value w j rq ga) as [out ->]. done.
Qed.

(** The result of an attempt that completes is a success. *)
Lemma V1_attempt_success w i rq ga t r out :
  V1.attempt w i rq ga t = (Normal r, out) →
  V1.res_status r = "success" ∧ V1.res_name r = name rq ∧
  V1.res_timeTaken r = Some (toFixed2 (now w i AfterSettle - t)).
Proof.
  unfold V1.attempt, bind.
  destruct (prepareHeaders _ _ _) as [[h|e] o1]; [|discriminate].
  destruct (method_toLowerCase rq) as [[m|e] o2]; [|discriminate].
  destruct (await _) as [[resp|e] o3]; [|discriminate].
  simpl. intros [= <- _]. done.
Qed.

Lemma V2_attempt_success w i rq ga t r out :
  V2.attempt w i rq ga t = (Normal r, out) →
  V2.res_status r = "success" ∧ V2.res_name r = name rq ∧
  V2.res_timeTaken r = Some (toFixed2 (now w i AfterSettle - t)).
Proof.
  unfold V2.attempt, bind.
  destruct (prepareHeaders _ _ _) as [[h|e] o1]; [|discriminate].
  destruct (method_toLowerCase rq) as [[m|e] o2]; [|discriminate].
  destruct (await _) as [[resp|e] o3]; [|discriminate].
  simpl. intros [= <- _]. done.
Qed.

(** ** The loop over the settled results *)

Lemma bind_ret {A B} (a : A) (k : A → eff B) : bind (ret a) k = k a.
Proof. unfold bind, ret. by destruct (k a). Qed.

Lemma V2_forEach requests vs idx c :
  (idx + length vs ≤ length requests)%nat →
  forEach (V2.count_result requests) (Fulfilled <$> vs) idx c =
  ret {| V2.c_successCount :=
           V2.c_successCount c + length (filter (λ v, V2.is_success v) vs);
         V2.c_failureCount :=
           V2.c_failureCount c + length (filter (λ v, ¬ V2.is_success v) vs);
         V2.c_totalTime :=
           foldl js_add (V2.c_totalTime c)
                 (V2.res_timeTaken <$> filter (λ v, V2.is_success v) vs);
         V2.c_responseSummary :=
           V2.c_responseSummary c
           ++ zip_with V2.entry_of (drop idx requests) vs |}.
Proof.
  revert idx c. induction vs as [|v vs IH]; intros idx c Hlen.
  - simpl. rewrite zip_with_nil_r, app_nil_r, !Nat.add_0_r. by destruct c.
  - simpl in Hlen.
    destruct (lookup_lt_is_Some_2 requests idx) as [rq Hrq]; [lia|].
    rewrite (drop_S _ _ _ Hrq). cbn [fmap list_fmap forEach].
    unfold V2.count_result at 1. rewrite Hrq.
    fold (V2.is_success v).
    destruct (V2.is_success v) eqn:Hs.
    + rewrite bind_ret, IH by lia.
      cbn [V2.c_successCount V2.c_failureCount V2.c_totalTime
           V2.c_responseSummary zip_with].
      rewrite !filter_cons_True by (rewrite Hs; simpl; tauto).
      rewrite filter_cons_False by (rewrite Hs; simpl; tauto).
      unfold V2.entry_of at 2. rewrite Hs.
      cbn [length fmap list_fmap foldl]. unfold parseFloat.
      rewrite <-app_assoc. simpl. do 2 f_equal. lia.
    + rewrite bind_ret, IH by lia.
      cbn [V2.c_successCount V2.c_failureCount V2.c_totalTime
           V2.c_responseSummary zip_with].
      rewrite !filter_cons_False by (rewrite Hs; simpl; tauto).
      rewrite filter_cons_True by (rewrite Hs; simpl; tauto).
      unfold V2.entry_of at 2. rewrite Hs.
      cbn [length]. rewrite <-app_assoc. simpl. do 2 f_equal. lia.
Qed.

Lemma V1_forEach requests vs idx c :
  (idx + length vs ≤ length requests)%nat →
  forEach (V1.count_result requests) (Fulfilled <$> vs) idx c =
  ret {| V1.c_successCount := V1.c_successCount c + length vs;
         V1.c_failureCount := V1.c_failureCount c;
         V1.c_totalTime :=
           foldl js_add (V1.c_totalTime c) (V1.res_timeTaken <$> vs);
         V1.c_logged :=
           V1.c_logged c ++ zip_with V1.entry_of (drop idx requests) vs |}.
Proof.
  revert idx c. induction vs as [|v vs IH]; intros idx c Hlen.
  - simpl. rewrite zip_with_nil_r, app_nil_r, Nat.add_0_r. by destruct c.
  - simpl in Hlen.
    destruct (lookup_lt_is_Some_2 requests idx) as [rq Hrq]; [lia|].
    rewrite (drop_S _ _ _ Hrq). cbn [fmap list_fmap forEach].
    unfold V1.count_result at 1. rewrite Hrq, bind_ret, IH by lia.
    cbn [V1.c_successCount V1.c_failureCount V1.c_totalTime V1.c_logged
         zip_with length fmap list_fmap foldl].
    unfold parseFloat, V1.entry_of at 2.
    rewrite <-app_assoc. simpl. do 2 f_equal. lia.
Qed.

(** ** The batch coordinator, in closed form *)

Lemma written_bind {A B} (ms : list (eff A)) (k : eff B) :
  (run written ms in k) = (k.1, concat (map snd ms) ++ k.2).
Proof. unfold bind, written. by destruct k. Qed.

Lemma V1_run_settled w requests ga :
  every_promise_settles (order w) (length requests) →
  ∃ out, V1.runConcurrentRequests w requests ga
         = Some (Normal (V1.report_of w requests ga), out).
Proof.
  intros Hall. unfold V1.runConcurrentRequests.
  rewrite V1_promises, allSettled_complete
    by (by rewrite length_fmap, length_imap).
  rewrite written_bind, V1_forEach by (rewrite length_imap; simpl; lia).
  rewrite bind_ret. simpl. rewrite ?Nat.add_0_l, ?drop_0. eauto.
Qed.

Lemma V2_run_settled w requests ga :
  every_promise_settles (order w) (length requests) →
  ∃ out, V2.runConcurrentRequests w requests ga
         = Some (Normal (V2.report_of w requests ga), out).
Proof.
  intros Hall. unfold V2.runConcurrentRequests.
  rewrite V2_promises, allSettled_complete
    by (by rewrite length_fmap, length_imap).
  rewrite written_bind, V2_forEach by (rewrite length_imap; simpl; lia).
  rewrite bind_ret. simpl. rewrite ?Nat.add_0_l, ?drop_0. eauto.
Qed.

(** A run that returns at all returns the closed form: the order of
    settlement is not seen in the report. *)
Lemma V1_run_inv w requests ga r :
  V1.runConcurrentRequests w requests ga = Some r →
  r.1 = Normal (V1.report_of w requests ga).
Proof.
  unfold V1.runConcurrentRequests. rewrite V1_promises.
  destruct (allSettled _ _) as [rs|] eqn:Hrs; [|discriminate].
  apply allSettled_inv in Hrs as ->. intros <-%(inj Some).
  rewrite written_bind, V1_forEach by (rewrite length_imap; simpl; lia).
  rewrite bind_ret. simpl. by rewrite ?Nat.add_0_l, ?drop_0.
Qed.

Lemma V2_run_inv w requests ga r :
  V2.runConcurrentRequests w requests ga = Some r →
  r.1 = Normal (V2.report_of w requests ga).
Proof.
  unfold V2.runConcurrentRequests. rewrite V2_promises.
  destruct (allSettled _ _) as [rs|] eqn:Hrs; [|discriminate].
  apply allSettled_inv in Hrs as ->. intros <-%(inj Some).
  rewrite written_bind, V2_forEach by (rewrite length_imap; simpl; lia).
  rewrite bind_ret. simpl. by rewrite ?Nat.add_0_l, ?drop_0.
Qed.

Lemma length_filter_split {A} (P : A → Prop) `{∀ x, Decision (P x)} (l : list A) :
  (length (filter P l) + length (filter (λ x, ¬ P x) l) = length l)%nat.
Proof.
  rewrite <-length_app. apply Permutation_length, filter_app_complement.
Qed.

(** ** The summary of a batch *)

(** C2: for every batch whose requests all settle, the coordinator (in both
    variants) produces a report in which the number of successes plus the
    number of failures is the total number of requests, which is the number
    of descriptors and the number of results. *)
Theorem summary_counts_add_up w requests ga :
  every_promise_settles (order w) (length requests) →
  (∃ rep out,
     V1.runConcurrentRequests w requests ga = Some (Normal rep, out) ∧
     (V1.successCount rep + V1.failureCount rep)%nat = V1.totalRequests rep ∧
     V1.totalRequests rep = length requests ∧
     V1.totalRequests rep = length (V1.results rep)) ∧
  (∃ rep out,
     V2.runConcurrentRequests w requests ga = Some (Normal rep, out) ∧
     (V2.successCount rep + V2.failureCount rep)%nat = V2.totalRequests rep ∧
     V2.totalRequests rep = length requests ∧
     V2.totalRequests rep = length (V2.results rep)).
Proof.
  intros Hall. split.
  - destruct (V1_run_settled w requests ga Hall) as [out ->].
    eexists _, _. split; [done|]. simpl.
    rewrite length_zip_with, length_imap. lia.
  - destruct (V2_run_settled w requests ga Hall) as [out ->].
    eexists _, _. split; [done|]. simpl.
    rewrite length_filter_split, length_zip_with, length_imap. lia.
Qed.

Lemma summary_counts_add_up_witness :
  (∃ rep out,
     V1.runConcurrentRequests world3 batch3 None = Some (Normal rep, out) ∧
     (V1.successCount rep + V1.failureCount rep)%nat = V1.totalRequests rep ∧
     V1.totalRequests rep = length batch3 ∧
     V1.totalRequests rep = length (V1.results rep)) ∧
  (∃ rep out,
     V2.runConcurrentRequests world3 batch3 None = Some (Normal rep, out) ∧
     (V2.successCount rep + V2.failureCount rep)%nat = V2.totalRequests rep ∧
     V2.totalRequests rep = length batch3 ∧
     V2.totalRequests rep = length (V2.results rep)).
Proof.
  apply (summary_counts_add_up world3 batch3 None).
  intros i Hi. simpl in *. destruct i as [|[|[|i]]]; [set_solver..|lia].
Defined.

(** ** The order of the results *)

Lemma V1_report_lookup w requests ga i rq :
  requests !! i = Some rq →
  V1.results (V1.report_of w requests ga) !! i
  = Some (V1.entry_of rq (V1.settled_value w i rq ga)).
Proof.
  intros Hi. simpl. rewrite lookup_zip_with, Hi. simpl.
  by rewrite list_lookup_imap, Hi.
Qed.

Lemma V2_report_lookup w requests ga i rq :
  requests !! i = Some rq →
  V2.results (V2.report_of w requests ga) !! i
  = Some (V2.entry_of rq (V2.settled_value w i rq ga)).
Proof.
  intros Hi. simpl. rewrite lookup_zip_with, Hi. simpl.
  by rewrite list_lookup_imap, Hi.
Qed.

Lemma V2_entry_of_name rq v : V2.sum_name (V2.entry_of rq v) = name rq.
Proof. unfold V2.entry_of. by destruct (V2.is_success v). Qed.

(** C3: for every list of descriptors whose requests all settle, in
    whatever order they settle, the i-th result of the report (in both
    variants) is the one of the i-th descriptor: it has the descriptor's name
    and is built from the value the execution of that descriptor returned;
    and another order of settlement gives the same run. *)
Theorem results_follow_input_order w requests ga :
  every_promise_settles (order w) (length requests) →
  (∃ rep out,
     V1.runConcurrentRequests w requests ga = Some (Normal rep, out) ∧
     length (V1.results rep) = length requests ∧
     (∀ i rq, requests !! i = Some rq →
        ∃ e v o, V1.results rep !! i = Some e ∧
                 V1.log_name e = name rq ∧
                 V1.executeRequest w i rq ga = (Normal v, o) ∧
                 e = V1.entry_of rq v) ∧
     (∀ settle_order,
        every_promise_settles settle_order (length requests) →
        V1.runConcurrentRequests (with_order w settle_order) requests ga
        = Some (Normal rep, out))) ∧
  (∃ rep out,
     V2.runConcurrentRequests w requests ga = Some (Normal rep, out) ∧
     length (V2.results rep) = length requests ∧
     (∀ i rq, requests !! i = Some rq →
        ∃ e v o, V2.results rep !! i = Some e ∧
                 V2.sum_name e = name rq ∧
                 V2.executeRequest w i rq ga = (Normal v, o) ∧
                 e = V2.entry_of rq v) ∧
     (∀ settle_order,
        every_promise_settles settle_order (length requests) →
        V2.runConcurrentRequests (with_order w settle_order) requests ga
        = Some (Normal rep, out))).
Proof.
  intros Hall. split.
  - destruct (V1_run_settled w requests ga Hall) as [out Hrun].
    eexists _, _. split; [exact Hrun|]. split; [|split].
    + simpl. rewrite length_zip_with, length_imap. lia.
    + intros i rq Hi.
      destruct (V1_executeRequest_value w i rq ga) as [o Hv].
      eexists _, _, _. split; [by apply V1_report_lookup|]. by split.
    + intros o Ho. rewrite <-Hrun. unfold V1.runConcurrentRequests.
      rewrite !V1_promises, !allSettled_complete
        by (by rewrite length_fmap, length_imap).
      reflexivity.
  - destruct (V2_run_settled w requests ga Hall) as [out Hrun].
    eexists _, _. split; [exact Hrun|]. split; [|split].
    + simpl. rewrite length_zip_with, length_imap. lia.
    + intros i rq Hi.
      destruct (V2_executeRequest_value w i rq ga) as [o Hv].
      eexists _, _, _. split; [by apply V2_report_lookup|].
      split; [apply V2_entry_of_name|by split].
    + intros o Ho. rewrite <-Hrun. unfold V2.runConcurrentRequests.
      rewrite !V2_promises, !allSettled_complete
        by (by rewrite length_fmap, length_imap).
      reflexivity.
Qed.

Lemma results_follow_input_order_witness :
  ∃ rep out,
    V2.runConcurrentRequests world3 batch3 None = Some (Normal rep, out) ∧
    length (V2.results rep) = length batch3 ∧
    ∃ e, V2.results rep !! 1%nat = Some e ∧ V2.sum_name e = "Request 2".
Proof.
  destruct (results_follow_input_order world3 batch3 None)
    as [_ (rep & out & Hrun & Hlen & Hnth & _)].
  - intros i Hi. simpl in *. destruct i as [|[|[|i]]]; [set_solver..|lia].
  - exists rep, out. split; [exact Hrun|]. split; [exact Hlen|].
    destruct (Hnth 1%nat (get_request "Request 2"
                            "https://unreachable.example.com/") eq_refl)
      as (e & v & o & He & Hname & _).
    exists e. split; [exact He|exact Hname].
Defined.

(** ** The request executor *)

Lemma V1_attempt_rejected w i rq ga t h o m e :
  prepareHeaders (headers rq) (req_auth rq) ga = (Normal h, o) →
  method rq = Some m →
  axios w i {| c_method := toLowerCase m; c_url := url rq; c_headers := h;
               c_data := body_or_null (body rq) |} = Reject e →
  (V1.attempt w i rq ga t).1 = Throw e.
Proof.
  intros Hh Hm Hax. unfold V1.attempt, method_toLowerCase.
  rewrite Hh, Hm. unfold bind at 1. rewrite bind_ret.
  by rewrite Hax.
Qed.

Lemma V2_attempt_rejected w i rq ga t h o m e :
  prepareHeaders (headers rq) (req_auth rq) ga = (Normal h, o) →
  method rq = Some m →
  axios w i {| c_method := toLowerCase m; c_url := url rq;
               c_headers := h ∪ V2.COMMON_HEADERS;
               c_data := body_or_null (body rq) |} = Reject e →
  (V2.attempt w i rq ga t).1 = Throw e.
Proof.
  intros Hh Hm Hax. unfold V2.attempt, method_toLowerCase.
  rewrite Hh, Hm. unfold bind at 1. rewrite bind_ret.
  by rewrite Hax.
Qed.

(** C4: for every descriptor, global auth and transport, [executeRequest]
    (in both variants) completes normally with a result, so that its
    promise is fulfilled and never rejected; whatever the [try] block
    throws becomes a result with status "error" that carries the message of
    the error, and in particular a rejected transport call becomes such a
    result with the message of the transport's error. *)
Theorem executeRequest_never_throws w i rq ga :
  (∃ v out,
     V1.executeRequest w i rq ga = (Normal v, out) ∧
     promise_of (V1.executeRequest w i rq ga) = Fulfilled v ∧
     match (V1.attempt w i rq ga (now w i AtEntry)).1 with
     | Normal r => v = r ∧ V1.res_status v = "success"
     | Throw e => V1.res_status v = "error" ∧
                  V1.res_error v = JStr (message e)
     end ∧
     (∀ h o m e,
        prepareHeaders (headers rq) (req_auth rq) ga = (Normal h, o) →
        method rq = Some m →
        axios w i {| c_method := toLowerCase m; c_url := url rq;
                     c_headers := h;
                     c_data := body_or_null (body rq) |} = Reject e →
        V1.res_status v = "error" ∧ V1.res_error v = JStr (message e))) ∧
  (∃ v out,
     V2.executeRequest w i rq ga = (Normal v, out) ∧
     promise_of (V2.executeRequest w i rq ga) = Fulfilled v ∧
     match (V2.attempt w i rq ga (now w i AtEntry)).1 with
     | Normal r => v = r ∧ V2.res_status v = "success"
     | Throw e => V2.res_status v = "error" ∧
                  V2.res_error v = JStr (message e)
     end ∧
     (∀ h o m e,
        prepareHeaders (headers rq) (req_auth rq) ga = (Normal h, o) →
        method rq = Some m →
        axios w i {| c_method := toLowerCase m; c_url := url rq;
                     c_headers := h ∪ V2.COMMON_HEADERS;
                     c_data := body_or_null (body rq) |} = Reject e →
        V2.res_status v = "error" ∧ V2.res_error v = JStr (message e))).
Proof.
  split.
  - destruct (V1_executeRequest_value w i rq ga) as [out Hv].
    exists (V1.settled_value w i rq ga), out.
    split; [exact Hv|]. split; [by rewrite Hv|].
    unfold V1.settled_value. split.
    + destruct (V1.attempt w i rq ga (now w i AtEntry)) as [[r|e] o] eqn:Ha;
        simpl; [|done].
      split; [done|]. by apply V1_attempt_success in Ha as [? _].
    + intros h o m e Hh Hm Hax.
      by rewrite (V1_attempt_rejected _ _ _ _ _ _ _ _ _ Hh Hm Hax).
  - destruct (V2_executeRequest_value w i rq ga) as [out Hv].
    exists (V2.settled_value w i rq ga), out.
    split; [exact Hv|]. split; [by rewrite Hv|].
    unfold V2.settled_value. split.
    + destruct (V2.attempt w i rq ga (now w i AtEntry)) as [[r|e] o] eqn:Ha;
        simpl; [|done].
      split; [done|]. by apply V2_attempt_success in Ha as [? _].
    + intros h o m e Hh Hm Hax.
      by rewrite (V2_attempt_rejected _ _ _ _ _ _ _ _ _ Hh Hm Hax).
Qed.

Lemma executeRequest_never_throws_witness :
  ∃ v out,
    V2.executeRequest world3 1
      (get_request "Request 2" "https://unreachable.example.com/") None
    = (Normal v, out) ∧
    V2.res_status v = "error" ∧ V2.res_error v = JStr "Network Error".
Proof.
  destruct (executeRequest_never_throws world3 1
              (get_request "Request 2" "https://unreachable.example.com/")
              None) as [_ (v & out & Hv & _ & _ & Hrej)].
  exists v, out. split; [exact Hv|].
  apply (Hrej ∅ [] "GET" network_error); reflexivity.
Defined.

(** ** The auth resolver *)

(** The header object that [reduce] builds: a later header of the list
    overrides an earlier one with the same key. *)
Lemma reduce_headers_snoc hs k v :
  reduce_headers (hs ++ [(k, v)]) = set_property k v (reduce_headers hs).
Proof. unfold reduce_headers. by rewrite foldl_app. Qed.

Lemma set_property_ne k v h :
  k ≠ "__proto__" → set_property k v h = <[k := v]> h.
Proof.
  intros Hk. unfold set_property. by destruct (String.eqb_spec k "__proto__").
Qed.

Lemma set_property_lookup_ne k v h k' :
  k ≠ k' → set_property k v h !! k' = h !! k'.
Proof.
  intros Hk. unfold set_property.
  destruct (String.eqb k "__proto__"); [done|]. by apply lookup_insert_ne.
Qed.

Lemma set_property_proto k v h :
  h !! "__proto__" = None → set_property k v h !! "__proto__" = None.
Proof.
  intros Hh. unfold set_property.
  destruct (String.eqb_spec k "__proto__") as [->|Hk]; [done|].
  by rewrite lookup_insert_ne.
Qed.

Lemma bearer_handler_sets h a first rest :
  bearer a = Some (first :: rest) →
  bearer_handler h a
  = (Normal (<["Authorization" := "Bearer " +:+ template (value first)]> h),
     []).
Proof. unfold bearer_handler. by intros ->. Qed.

Lemma basic_handler_sets h a c :
  basic a = Some c →
  basic_handler h a
  = (Normal (<["Authorization" :=
                "Basic " +:+ base64 (template (username c) +:+ ":"
                                     +:+ template (password c))]> h), []).
Proof. unfold basic_handler. by intros ->. Qed.

Lemma applyAuth_bearer h a :
  type a = "bearer" → applyAuth h (Some a) = bearer_handler h a.
Proof. intros Ht. unfold applyAuth, authHandlers. by rewrite Ht. Qed.

Lemma applyAuth_basic h a :
  type a = "basic" → applyAuth h (Some a) = basic_handler h a.
Proof. intros Ht. unfold applyAuth, authHandlers. by rewrite Ht. Qed.

Lemma applyAuth_apikey h a :
  type a = "apikey" → applyAuth h (Some a) = apikey_handler h a.
Proof. intros Ht. unfold applyAuth, authHandlers. by rewrite Ht. Qed.

Lemma apikey_handler_frame h a h' out k :
  apikey_handler h a = (Normal h', out) →
  (∀ es, apikey a = Some es → find_value "key" es ≠ Some k) →
  h' !! k = h !! k.
Proof.
  unfold apikey_handler. intros Hrun Hk.
  destruct (apikey a) as [es|]; [|discriminate].
  specialize (Hk es eq_refl).
  destruct (_ && _) eqn:Hvalid; injection Hrun as <- _; [|done].
  destruct (find_value "key" es) as [kn|]; [|done].
  apply set_property_lookup_ne. simpl. congruence.
Qed.

(** C10: whenever [applyAuth] returns for a Bearer or Basic auth object, the
    header object it returns agrees with the one it was given at every key
    other than "Authorization" (no other key changed or added); for an
    ApiKey auth object it agrees at every key other than the key name the
    object gives. *)
Theorem applyAuth_frame h a h' out :
  applyAuth h (Some a) = (Normal h', out) →
  (type a = "bearer" ∨ type a = "basic" →
   ∀ k, k ≠ "Authorization" → h' !! k = h !! k) ∧
  (type a = "apikey" →
   ∀ k, (∀ es, apikey a = Some es → find_value "key" es ≠ Some k) →
        h' !! k = h !! k).
Proof.
  intros Hrun. split.
  - intros Ht k Hk.
    destruct Ht as [Ht|Ht];
      [rewrite applyAuth_bearer in Hrun by done
      |rewrite applyAuth_basic in Hrun by done].
    + unfold bearer_handler in Hrun.
      destruct (bearer a) as [[|first rest]|]; try discriminate.
      injection Hrun as <- _. by rewrite lookup_insert_ne.
    + unfold basic_handler in Hrun.
      destruct (basic a) as [c|]; [|discriminate].
      injection Hrun as <- _. by rewrite lookup_insert_ne.
  - intros Ht k Hk. rewrite applyAuth_apikey in Hrun by done.
    by eapply apikey_handler_frame.
Qed.

Lemma applyAuth_frame_witness :
  ∃ h',
    applyAuth {[ "Accept" := "text/plain" ]} (Some (basic_auth "u" "p"))
    = (Normal h', []) ∧
    h' !! "Accept" = Some "text/plain" ∧
    h' !! "X-Other" = None ∧
    h' !! "Authorization" = Some "Basic dTpw".
Proof.
  eexists. split; [reflexivity|].
  destruct (applyAuth_frame {[ "Accept" := "text/plain" ]}
              (basic_auth "u" "p") _ [] eq_refl) as [Hframe _].
  split; [|split].
  - rewrite (Hframe (or_intror eq_refl) "Accept") by discriminate.
    reflexivity.
  - rewrite (Hframe (or_intror eq_refl) "X-Other") by discriminate.
    reflexivity.
  - vm_compute. reflexivity.
Defined.

(** ** From the resolver to the result of a request *)

Lemma V1_settled_resolved w i rq ga h o m resp :
  prepareHeaders (headers rq) (req_auth rq) ga = (Normal h, o) →
  method rq = Some m →
  axios w i {| c_method := toLowerCase m; c_url := url rq; c_headers := h;
               c_data := body_or_null (body rq) |} = Resolve resp →
  V1.res_status (V1.settled_value w i rq ga) = "success".
Proof.
  intros Hh Hm Hax. unfold V1.settled_value, V1.attempt, method_toLowerCase.
  rewrite Hh, Hm. unfold bind at 1. rewrite bind_ret, Hax. done.
Qed.

Lemma V2_settled_resolved w i rq ga h o m resp :
  prepareHeaders (headers rq) (req_auth rq) ga = (Normal h, o) →
  method rq = Some m →
  axios w i {| c_method := toLowerCase m; c_url := url rq;
               c_headers := h ∪ V2.COMMON_HEADERS;
               c_data := body_or_null (body rq) |} = Resolve resp →
  V2.res_status (V2.settled_value w i rq ga) = "success".
Proof.
  intros Hh Hm Hax. unfold V2.settled_value, V2.attempt, method_toLowerCase.
  rewrite Hh, Hm. unfold bind at 1. rewrite bind_ret, Hax. done.
Qed.

Lemma V1_settled_prepare_throws w i rq ga e o :
  prepareHeaders (headers rq) (req_auth rq) ga = (Throw e, o) →
  V1.res_status (V1.settled_value w i rq ga) = "error" ∧
  V1.res_error (V1.settled_value w i rq ga) = JStr (message e).
Proof.
  intros Hh. unfold V1.settled_value, V1.attempt. by rewrite Hh.
Qed.

Lemma V2_settled_prepare_throws w i rq ga e o :
  prepareHeaders (headers rq) (req_auth rq) ga = (Throw e, o) →
  V2.res_status (V2.settled_value w i rq ga) = "error" ∧
  V2.res_error (V2.settled_value w i rq ga) = JStr (message e).
Proof.
  intros Hh. unfold V2.settled_value, V2.attempt. by rewrite Hh.
Qed.

Lemma present_Some s : present (Some s) = true ↔ s ≠ "".
Proof.
  simpl. destruct (String.eqb_spec s ""); simpl; split; congruence.
Qed.

Lemma apikey_handler_valid h a es kn kv :
  apikey a = Some es → apikey_valid es kn kv →
  apikey_handler h a = (Normal (set_property kn kv h), []).
Proof.
  intros Ha (Hk & Hkn & Hv & Hkv & Hin). unfold apikey_handler.
  rewrite Ha, Hk, Hv, Hin.
  apply present_Some in Hkn, Hkv. rewrite Hkn, Hkv.
  by rewrite bool_decide_eq_true_2.
Qed.

Lemma apikey_handler_invalid h a es :
  apikey a = Some es → (¬ ∃ kn kv, apikey_valid es kn kv) →
  apikey_handler h a = (Normal h, [apikey_warning]).
Proof.
  intros Ha Hno. unfold apikey_handler. rewrite Ha.
  destruct (present (find_value "key" es)) eqn:Hkn; [|done].
  destruct (present (find_value "value" es)) eqn:Hkv; [|done].
  case_bool_decide as Hin; [|done].
  destruct (find_value "key" es) as [kn|] eqn:Hk; [|discriminate Hkn].
  destruct (find_value "value" es) as [kv|] eqn:Hv; [|discriminate Hkv].
  exfalso. apply Hno. exists kn, kv.
  apply present_Some in Hkn, Hkv. by repeat split.
Qed.

(** C7: for every header list, request-level auth and global auth, the
    resolver applies the request-level auth when there is one, whatever the
    global auth is, and the global auth otherwise; with neither, the
    headers come out as they went in.  What is applied shows in the header
    object: a Bearer, Basic or ApiKey auth object given at request level
    puts its own credential into the headers that are returned, the same
    headers as when it is the global auth of a request that has none. *)
Theorem request_auth_takes_precedence hs a ga ga' h :
  effective_auth (Some a) ga = Some a ∧
  effective_auth None ga = ga ∧
  prepareHeaders hs (Some a) ga = applyAuth (reduce_headers hs) (Some a) ∧
  prepareHeaders hs (Some a) ga = prepareHeaders hs (Some a) ga' ∧
  prepareHeaders hs None ga = applyAuth (reduce_headers hs) ga ∧
  prepareHeaders hs None None = (Normal (reduce_headers hs), []) ∧
  applyAuth h None = (Normal h, []) ∧
  (∀ w i rq,
     V1.executeRequest w i (with_auth rq a) ga
     = V1.executeRequest w i (with_auth rq a) ga' ∧
     V2.executeRequest w i (with_auth rq a) ga
     = V2.executeRequest w i (with_auth rq a) ga') ∧
  (∀ first rest,
     type a = "bearer" → bearer a = Some (first :: rest) →
     prepareHeaders hs (Some a) ga
     = (Normal (<["Authorization" := "Bearer " +:+ template (value first)]>
                  (reduce_headers hs)), []) ∧
     prepareHeaders hs None (Some a) = prepareHeaders hs (Some a) ga) ∧
  (∀ c,
     type a = "basic" → basic a = Some c →
     prepareHeaders hs (Some a) ga
     = (Normal (<["Authorization" :=
                   "Basic " +:+ base64 (template (username c) +:+ ":"
                                        +:+ template (password c))]>
                  (reduce_headers hs)), []) ∧
     prepareHeaders hs None (Some a) = prepareHeaders hs (Some a) ga) ∧
  (∀ es kn kv,
     type a = "apikey" → apikey a = Some es → apikey_valid es kn kv →
     kn ≠ "__proto__" →
     prepareHeaders hs (Some a) ga
     = (Normal (<[kn := kv]> (reduce_headers hs)), []) ∧
     prepareHeaders hs None (Some a) = prepareHeaders hs (Some a) ga).
Proof.
  do 7 (split; [reflexivity|]). split; [by repeat split|].
  split; [|split].
  - intros first rest Ht Hb. split; [|reflexivity].
    unfold prepareHeaders. cbn [effective_auth].
    rewrite applyAuth_bearer by done. by eapply bearer_handler_sets.
  - intros c Ht Hb. split; [|reflexivity].
    unfold prepareHeaders. cbn [effective_auth].
    rewrite applyAuth_basic by done. by apply basic_handler_sets.
  - intros es kn kv Ht Ha Hvalid Hkn. split; [|reflexivity].
    unfold prepareHeaders. cbn [effective_auth].
    rewrite applyAuth_apikey by done.
    rewrite (apikey_handler_valid _ a es kn kv) by done.
    by rewrite set_property_ne.
Qed.

Lemma request_auth_takes_precedence_witness :
  prepareHeaders [("Accept", "text/plain")]
    (Some (bearer_auth (Some [param "token" "request-level"])))
    (Some (basic_auth "u" "p"))
  = (Normal (<["Authorization" := "Bearer request-level"]>
               {[ "Accept" := "text/plain" ]}), []) ∧
  prepareHeaders [("Accept", "text/plain")] None (Some (basic_auth "u" "p"))
  = (Normal (<["Authorization" := "Basic dTpw"]>
               {[ "Accept" := "text/plain" ]}), []).
Proof.
  split.
  - destruct (request_auth_takes_precedence [("Accept", "text/plain")]
                (bearer_auth (Some [param "token" "request-level"]))
                (Some (basic_auth "u" "p")) None ∅)
      as (_ & _ & _ & _ & _ & _ & _ & _ & Hbearer & _).
    destruct (Hbearer (param "token" "request-level") [] eq_refl eq_refl)
      as [Hrun _].
    exact Hrun.
  - destruct (request_auth_takes_precedence [("Accept", "text/plain")]
                (basic_auth "u" "p") None None ∅)
      as (_ & _ & _ & _ & _ & _ & _ & _ & _ & Hbasic & _).
    destruct (Hbasic {| username := Some "u"; password := Some "p" |}
                eq_refl eq_refl) as [Hrun Hglobal].
    rewrite Hglobal. exact Hrun.
Defined.

(** C8, as the code has it: for every header object and ApiKey auth object
    that carries its parameter list, the resolver sets the header named by
    the key name to the key value exactly when key name and key value are
    present and not empty and the location is "header" (for a key name
    other than "__proto__", the one name at which an assignment to a plain
    object creates no member); in every other case the headers are left as
    they were, one diagnostic is written, and a request with this auth
    still goes to the transport and is a success when the transport
    answers. *)
Theorem apikey_applied_iff_valid h a es :
  type a = "apikey" → apikey a = Some es →
  (∀ kn kv, apikey_valid es kn kv → kn ≠ "__proto__" →
     applyAuth h (Some a) = (Normal (<[kn := kv]> h), [])) ∧
  ((¬ ∃ kn kv, apikey_valid es kn kv) →
     applyAuth h (Some a) = (Normal h, [apikey_warning]) ∧
     ∀ w i rq ga m resp,
       effective_auth (req_auth rq) ga = Some a → method rq = Some m →
       (axios w i {| c_method := toLowerCase m; c_url := url rq;
                     c_headers := reduce_headers (headers rq);
                     c_data := body_or_null (body rq) |} = Resolve resp →
        ∃ v out, V1.executeRequest w i rq ga = (Normal v, out) ∧
                 V1.res_status v = "success") ∧
       (axios w i {| c_method := toLowerCase m; c_url := url rq;
                     c_headers :=
                       reduce_headers (headers rq) ∪ V2.COMMON_HEADERS;
                     c_data := body_or_null (body rq) |} = Resolve resp →
        ∃ v out, V2.executeRequest w i rq ga = (Normal v, out) ∧
                 V2.res_status v = "success")).
Proof.
  intros Ht Ha.
  assert (Happ : ∀ h0, applyAuth h0 (Some a) = apikey_handler h0 a).
  { intros h0. unfold applyAuth, authHandlers. by rewrite Ht. }
  split.
  - intros kn kv Hvalid Hkn. rewrite Happ.
    rewrite (apikey_handler_valid _ a es kn kv) by done.
    by rewrite set_property_ne.
  - intros Hno. split.
    { rewrite Happ. by eapply apikey_handler_invalid. }
    intros w i rq ga m resp Heff Hm.
    assert (Hprep : prepareHeaders (headers rq) (req_auth rq) ga
                    = (Normal (reduce_headers (headers rq)),
                       [apikey_warning])).
    { unfold prepareHeaders. rewrite Heff, Happ.
      by eapply apikey_handler_invalid. }
    split; intros Hax.
    + destruct (V1_executeRequest_value w i rq ga) as [out Hv].
      eexists _, _. split; [exact Hv|].
      by eapply V1_settled_resolved.
    + destruct (V2_executeRequest_value w i rq ga) as [out Hv].
      eexists _, _. split; [exact Hv|].
      by eapply V2_settled_resolved.
Qed.

Lemma apikey_applied_iff_valid_witness :
  applyAuth ∅ (Some (apikey_auth (Some [param "key" "X-API-Key";
                                        param "value" "secret";
                                        param "in" "header"])))
  = (Normal (<["X-API-Key" := "secret"]> ∅), []) ∧
  applyAuth ∅ (Some (apikey_auth (Some [param "key" "X-API-Key";
                                        param "value" "secret";
                                        param "in" "query"])))
  = (Normal ∅, [apikey_warning]).
Proof.
  split.
  - apply (apikey_applied_iff_valid ∅
             (apikey_auth (Some [param "key" "X-API-Key";
                                 param "value" "secret";
                                 param "in" "header"]))
             [param "key" "X-API-Key"; param "value" "secret";
              param "in" "header"] eq_refl eq_refl);
      [repeat split; discriminate | discriminate].
  - apply (apikey_applied_iff_valid ∅
             (apikey_auth (Some [param "key" "X-API-Key";
                                 param "value" "secret";
                                 param "in" "query"]))
             [param "key" "X-API-Key"; param "value" "secret";
              param "in" "query"] eq_refl eq_refl).
    intros (kn & kv & _ & _ & _ & _ & Hin). discriminate Hin.
Defined.

(** C8 as it was stated fails: a key value that is present but empty is
    not set although the location is "header", and an ApiKey auth object
    with no parameter list at all makes the request a failure although
    the transport would have answered. *)
Lemma apikey_claim_counterexample :
  find_value "key" [param "key" "X-API-Key"; param "value" "";
                    param "in" "header"] = Some "X-API-Key" ∧
  find_value "value" [param "key" "X-API-Key"; param "value" "";
                      param "in" "header"] = Some "" ∧
  find_value "in" [param "key" "X-API-Key"; param "value" "";
                   param "in" "header"] = Some "header" ∧
  applyAuth ∅ (Some (apikey_auth (Some [param "key" "X-API-Key";
                                        param "value" "";
                                        param "in" "header"])))
  = (Normal ∅, [apikey_warning]) ∧
  (∃ v1 v2,
     V1.executeRequest world3 0
       (with_auth (get_request "Request 1" "https://api.example.com/users/1")
                  (apikey_auth None)) None = (Normal v1, []) ∧
     V1.res_status v1 = "error" ∧
     V2.executeRequest world3 0
       (with_auth (get_request "Request 1" "https://api.example.com/users/1")
                  (apikey_auth None)) None = (Normal v2, []) ∧
     V2.res_status v2 = "error").
Proof.
  repeat split. eexists _, _. repeat split.
Qed.

Lemma bearer_handler_missing h a :
  bearer a = None ∨ bearer a = Some [] →
  ∃ e, bearer_handler h a = (Throw e, []).
Proof. unfold bearer_handler. intros [-> | ->]; eauto. Qed.

(** C9, as the code has it: for every header object and Bearer auth object
    whose first parameter has a value, the resolver sets "Authorization" to
    "Bearer " followed by that value; when the object has no parameter (the
    list is missing or empty), the execution of a request with this auth
    returns a result with status "error", and the batch is not aborted: the
    coordinator still returns a report with one result per request, in
    which the results of the other requests are those of their own
    executions. *)
Theorem bearer_token_or_failure h a :
  type a = "bearer" →
  (∀ first rest token,
     bearer a = Some (first :: rest) → value first = Some token →
     applyAuth h (Some a)
     = (Normal (<["Authorization" := "Bearer " +:+ token]> h), [])) ∧
  (bearer a = None ∨ bearer a = Some [] →
   ∀ w requests ga i rq,
     requests !! i = Some rq →
     effective_auth (req_auth rq) ga = Some a →
     (∃ v out, V1.executeRequest w i rq ga = (Normal v, out) ∧
               V1.res_status v = "error") ∧
     (∃ v out, V2.executeRequest w i rq ga = (Normal v, out) ∧
               V2.res_status v = "error") ∧
     (every_promise_settles (order w) (length requests) →
      (∃ rep out,
         V1.runConcurrentRequests w requests ga = Some (Normal rep, out) ∧
         length (V1.results rep) = length requests) ∧
      (∃ rep out,
         V2.runConcurrentRequests w requests ga = Some (Normal rep, out) ∧
         length (V2.results rep) = length requests ∧
         (∃ e, V2.results rep !! i = Some e ∧ V2.sum_status e = "error") ∧
         (∀ j rq', j ≠ i → requests !! j = Some rq' →
            ∃ v o, V2.executeRequest w j rq' ga = (Normal v, o) ∧
                   V2.results rep !! j = Some (V2.entry_of rq' v))))).
Proof.
  intros Ht.
  assert (Happ : ∀ h0, applyAuth h0 (Some a) = bearer_handler h0 a).
  { intros h0. unfold applyAuth, authHandlers. by rewrite Ht. }
  split.
  - intros first rest token Hb Hv. rewrite Happ. unfold bearer_handler.
    by rewrite Hb, Hv.
  - intros Hmiss w requests ga i rq Hi Heff.
    destruct (bearer_handler_missing (reduce_headers (headers rq)) a Hmiss)
      as [e He].
    assert (Hprep : prepareHeaders (headers rq) (req_auth rq) ga
                    = (Throw e, [])).
    { unfold prepareHeaders. by rewrite Heff, Happ. }
    destruct (V1_settled_prepare_throws w i rq ga e [] Hprep) as [Hs1 _].
    destruct (V2_settled_prepare_throws w i rq ga e [] Hprep) as [Hs2 _].
    split; [|split].
    + destruct (V1_executeRequest_value w i rq ga) as [out Hv]. eauto.
    + destruct (V2_executeRequest_value w i rq ga) as [out Hv]. eauto.
    + intros Hall. split.
      * destruct (V1_run_settled w requests ga Hall) as [out ->].
        eexists _, _. split; [done|]. simpl.
        rewrite length_zip_with, length_imap. lia.
      * destruct (V2_run_settled w requests ga Hall) as [out ->].
        eexists _, _. split; [done|]. split; [|split].
        -- simpl. rewrite length_zip_with, length_imap. lia.
        -- eexists. split; [by apply V2_report_lookup|].
           unfold V2.entry_of, V2.is_success. by rewrite Hs2.
        -- intros j rq' _ Hj.
           destruct (V2_executeRequest_value w j rq' ga) as [o Hv].
           eexists _, _. split; [exact Hv|]. by apply V2_report_lookup.
Qed.

Lemma bearer_token_or_failure_witness :
  applyAuth ∅ (Some (bearer_auth (Some [param "token" "abc"])))
  = (Normal (<["Authorization" := "Bearer abc"]> ∅), []) ∧
  ∃ v out,
    V2.executeRequest world3 0
      (with_auth (get_request "Request 1" "https://api.example.com/users/1")
                 (bearer_auth (Some []))) None = (Normal v, out) ∧
    V2.res_status v = "error".
Proof.
  split.
  - destruct (bearer_token_or_failure ∅
                (bearer_auth (Some [param "token" "abc"])) eq_refl)
      as [Hset _].
    exact (Hset (param "token" "abc") [] "abc" eq_refl eq_refl).
  - destruct (bearer_token_or_failure ∅ (bearer_auth (Some [])) eq_refl)
      as [_ Hfail].
    destruct (Hfail (or_intror eq_refl) world3
                [with_auth (get_request "Request 1"
                              "https://api.example.com/users/1")
                           (bearer_auth (Some []))]
                None 0%nat _ eq_refl eq_refl) as (_ & H2 & _).
    exact H2.
Defined.

(** C9 as it was stated fails: a Bearer auth object whose parameter has no
    value (the token is absent) does not make the request a failure; the
    header "Bearer undefined" is sent and the request is a success when the
    transport answers. *)
Lemma bearer_claim_counterexample :
  value {| key := "token"; value := None |} = None ∧
  applyAuth ∅ (Some (bearer_auth (Some [{| key := "token";
                                           value := None |}])))
  = (Normal (<["Authorization" := "Bearer undefined"]> ∅), []) ∧
  (∃ v1 v2,
     V1.executeRequest world3 0
       (with_auth (get_request "Request 1" "https://api.example.com/users/1")
                  (bearer_auth (Some [{| key := "token"; value := None |}])))
       None = (Normal v1, []) ∧
     V1.res_status v1 = "success" ∧
     V2.executeRequest world3 0
       (with_auth (get_request "Request 1" "https://api.example.com/users/1")
                  (bearer_auth (Some [{| key := "token"; value := None |}])))
       None = (Normal v2, []) ∧
     V2.res_status v2 = "success").
Proof.
  repeat split. eexists _, _. repeat split.
Qed.

(** ** The elapsed time of a request *)

Lemma V1_settled_time w i rq ga :
  let v := V1.settled_value w i rq ga in
  (V1.res_status v = "success" ∧
   V1.res_timeTaken v
   = Some (toFixed2 (now w i AfterSettle - now w i AtEntry))) ∨
  (V1.res_status v = "error" ∧
   V1.res_timeTaken v = Some (toFixed2 (now w i InCatch - now w i AtEntry))).
Proof.
  unfold V1.settled_value.
  destruct (V1.attempt w i rq ga (now w i AtEntry)) as [[r|e] o] eqn:Ha;
    simpl; [left|by right].
  by apply V1_attempt_success in Ha as (? & _ & ?).
Qed.

Lemma V2_settled_time w i rq ga :
  let v := V2.settled_value w i rq ga in
  (V2.res_status v = "success" ∧
   V2.res_timeTaken v
   = Some (toFixed2 (now w i AfterSettle - now w i AtEntry))) ∨
  (V2.res_status v = "error" ∧ V2.res_timeTaken v = None).
Proof.
  unfold V2.settled_value.
  destruct (V2.attempt w i rq ga (now w i AtEntry)) as [[r|e] o] eqn:Ha;
    simpl; [left|by right].
  by apply V2_attempt_success in Ha as (? & _ & ?).
Qed.

(** C6, as the code has it: the result of a request that succeeds records
    the elapsed time from the entry of [executeRequest], before the headers
    are assembled, to the moment the function resumes after the transport
    call; the result of a request that fails records, in the first variant,
    the time from the entry of [executeRequest] to the entry of the [catch]
    block, and no elapsed time in the second variant. *)
Theorem elapsed_time_recorded w i rq ga :
  (∃ v out,
     V1.executeRequest w i rq ga = (Normal v, out) ∧
     ((V1.res_status v = "success" ∧
       V1.res_timeTaken v
       = Some (toFixed2 (now w i AfterSettle - now w i AtEntry))) ∨
      (V1.res_status v = "error" ∧
       V1.res_timeTaken v
       = Some (toFixed2 (now w i InCatch - now w i AtEntry))))) ∧
  (∃ v out,
     V2.executeRequest w i rq ga = (Normal v, out) ∧
     ((V2.res_status v = "success" ∧
       V2.res_timeTaken v
       = Some (toFixed2 (now w i AfterSettle - now w i AtEntry))) ∨
      (V2.res_status v = "error" ∧ V2.res_timeTaken v = None))).
Proof.
  split.
  - destruct (V1_executeRequest_value w i rq ga) as [out Hv].
    eexists _, _. split; [exact Hv|]. apply V1_settled_time.
  - destruct (V2_executeRequest_value w i rq ga) as [out Hv].
    eexists _, _. split; [exact Hv|]. apply V2_settled_time.
Qed.

(** C6 as it was stated fails: in the second variant the result of a
    failed request has no elapsed time, and the time a successful request
    records (here 123.45 ms) starts at the entry of the executor, so it is
    not the span of the transport call alone (here 123.41 ms). *)
Lemma elapsed_claim_counterexample :
  (∃ v,
     V2.executeRequest world3 1
       (get_request "Request 2" "https://unreachable.example.com/") None
     = (Normal v, []) ∧
     V2.res_status v = "error" ∧ V2.res_timeTaken v = None) ∧
  (∃ v1 v2,
     V1.executeRequest world3 0
       (get_request "Request 1" "https://api.example.com/users/1") None
     = (Normal v1, []) ∧
     V1.res_status v1 = "success" ∧ V1.res_timeTaken v1 = Some 12345 ∧
     V2.executeRequest world3 0
       (get_request "Request 1" "https://api.example.com/users/1") None
     = (Normal v2, []) ∧
     V2.res_status v2 = "success" ∧ V2.res_timeTaken v2 = Some 12345 ∧
     toFixed2 (now world3 0 AfterSettle - now world3 0 BeforeSend) = 12341).
Proof.
  split.
  - eexists. repeat split.
  - eexists _, _. repeat split.
Qed.

(** ** The mixed batch *)

(** C1, on the first variant: in the batch of three requests whose second
    transport call meets a network error, [executeRequest] returns a result
    with status "error" for the second request, yet the coordinator logs
    all three results as a success and reports 3 successes and 0 failures
    where the claim has 2 and 1. *)
Theorem mixed_batch_first_variant_miscounts :
  (∃ v,
     V1.executeRequest world3 1
       (get_request "Request 2" "https://unreachable.example.com/") None
     = (Normal v, []) ∧
     V1.res_status v = "error" ∧ V1.res_error v = JStr "Network Error") ∧
  (∃ rep,
     V1.runConcurrentRequests world3 batch3 None = Some (Normal rep, []) ∧
     V1.log_name <$> V1.results rep
     = ["Request 1"; "Request 2"; "Request 3"] ∧
     V1.log_status <$> V1.results rep = ["success"; "success"; "success"] ∧
     V1.successCount rep = 3%nat ∧ V1.failureCount rep = 0%nat).
Proof.
  split.
  - eexists. repeat split.
  - eexists. split; [vm_compute; reflexivity|]. repeat split.
Qed.

(** The second variant counts the same batch as the claim has it. *)
Lemma mixed_batch_second_variant :
  ∃ rep,
    V2.runConcurrentRequests world3 batch3 None = Some (Normal rep, []) ∧
    V2.sum_name <$> V2.results rep
    = ["Request 1"; "Request 2"; "Request 3"] ∧
    V2.sum_status <$> V2.results rep = ["success"; "error"; "success"] ∧
    V2.sum_timeTaken <$> V2.results rep = [Some 12345; None; Some 6512] ∧
    V2.successCount rep = 2%nat ∧ V2.failureCount rep = 1%nat.
Proof.
  eexists. split; [vm_compute; reflexivity|]. repeat split.
Qed.

(** ** The average over the successful requests *)

Lemma foldl_js_add a ts :
  foldl js_add (Some a) (Some <$> ts) = Some (a + sum_Z ts).
Proof.
  revert a. induction ts as [|t ts IH]; intros a; simpl.
  - f_equal. lia.
  - rewrite IH. f_equal. unfold sum_Z. simpl. lia.
Qed.

Lemma V2_success_time w i rq ga :
  V2.is_success (V2.settled_value w i rq ga) →
  V2.res_timeTaken (V2.settled_value w i rq ga)
  = Some (toFixed2 (now w i AfterSettle - now w i AtEntry)).
Proof.
  unfold V2.is_success.
  destruct (V2_settled_time w i rq ga) as [[_ Ht]|[Hs _]]; [done|].
  by rewrite Hs.
Qed.

(** The times of the results reported as a success are the times of the
    executions that were a success. *)
Lemma V2_success_times_zip requests vs :
  length requests = length vs →
  V2.success_times (zip_with V2.entry_of requests vs)
  = omap V2.res_timeTaken (filter (λ v, V2.is_success v) vs).
Proof.
  revert vs. unfold V2.success_times.
  induction requests as [|rq requests IH]; intros [|v vs] Hlen;
    try done. simpl in Hlen. simpl zip_with.
  unfold V2.entry_of at 1. destruct (V2.is_success v) eqn:Hs.
  - rewrite filter_cons_True by done.
    rewrite (filter_cons_True _ v) by (rewrite Hs; simpl; tauto).
    simpl. rewrite IH by lia. done.
  - rewrite filter_cons_False by done.
    rewrite (filter_cons_False _ v) by (rewrite Hs; simpl; tauto).
    apply IH. lia.
Qed.

Lemma fmap_Some_omap {A B} (f : A → option B) (l : list A) :
  Forall (λ x, is_Some (f x)) l → f <$> l = Some <$> omap f l.
Proof.
  induction 1 as [|x l [y Hy] _ IH]; [done|].
  rewrite fmap_cons, IH. cbn [omap list_omap]. by rewrite Hy.
Qed.

Lemma V2_successes_timed w requests ga :
  Forall (λ v, is_Some (V2.res_timeTaken v))
    (filter (λ v, V2.is_success v)
       (imap (λ i rq, V2.settled_value w i rq ga) requests)).
Proof.
  apply Forall_forall. intros v [Hs Hin]%list_elem_of_filter.
  apply list_elem_of_lookup in Hin as [i Hi].
  rewrite list_lookup_imap in Hi.
  destruct (requests !! i) as [rq|]; [|done]. simpl in Hi.
  injection Hi as <-. rewrite V2_success_time by done. eauto.
Qed.

(** On the second variant the average is, for every batch, the arithmetic
    mean of the elapsed times of the results reported as a success, and 0
    when there is none. *)
Lemma V2_average_is_mean w requests ga :
  every_promise_settles (order w) (length requests) →
  ∃ rep out,
    V2.runConcurrentRequests w requests ga = Some (Normal rep, out) ∧
    V2.successCount rep = length (V2.success_times (V2.results rep)) ∧
    V2.avgTime rep = Some (mean (V2.success_times (V2.results rep))) ∧
    (V2.successCount rep = 0%nat → V2.avgTime rep = Some 0%Q).
Proof.
  intros Hall. destruct (V2_run_settled w requests ga Hall) as [out ->].
  eexists _, _. split; [done|].
  unfold V2.report_of. cbn [V2.results V2.successCount V2.avgTime].
  rewrite V2_success_times_zip by (by rewrite length_imap).
  pose proof (V2_successes_timed w requests ga) as Htimed.
  set (ok := filter _ _) in *.
  rewrite (fmap_Some_omap _ _ Htimed), foldl_js_add.
  assert (Hlen : length (omap V2.res_timeTaken ok) = length ok).
  { rewrite <-(length_fmap Some), <-fmap_Some_omap by done.
    by rewrite length_fmap. }
  rewrite Hlen. split; [done|]. split.
  - destruct (omap V2.res_timeTaken ok) as [|t ts] eqn:Hts.
    + simpl in Hlen. by rewrite <-Hlen.
    + rewrite <-Hlen. simpl. done.
  - by intros ->.
Qed.

(** C5, on the first variant: in the batch of three requests whose second
    transport call meets a network error, the results have the elapsed
    times 123.45 ms, 98.23 ms (the failure) and 65.12 ms; the average the
    coordinator reports is the mean of all three, which is not the mean of
    the two successes that the claim has. *)
Theorem first_variant_average_counts_failure :
  ∃ rep v1 v2 v3,
    V1.runConcurrentRequests world3 batch3 None = Some (Normal rep, []) ∧
    imap (λ i rq, V1.executeRequest world3 i rq None) batch3
    = [(Normal v1, []); (Normal v2, []); (Normal v3, [])] ∧
    V1.res_status <$> [v1; v2; v3] = ["success"; "error"; "success"] ∧
    V1.res_timeTaken <$> [v1; v2; v3]
    = [Some 12345; Some 9823; Some 6512] ∧
    V1.avgTime rep = Some (mean [12345; 9823; 6512]) ∧
    ¬ Qeq (mean [12345; 9823; 6512]) (mean [12345; 6512]).
Proof.
  eexists _, _, _, _. split; [vm_compute; reflexivity|].
  split; [vm_compute; reflexivity|]. repeat split.
  intros H. vm_compute in H. discriminate H.
Qed.

(** ** The scenarios of the specification *)

Lemma V2_settled_value_eq w i rq ga v o :
  V2.executeRequest w i rq ga = (Normal v, o) → V2.settled_value w i rq ga = v.
Proof.
  destruct (V2_executeRequest_value w i rq ga) as [o' ->]. congruence.
Qed.

(** On the second variant the claim about the mixed batch holds for any
    three requests of which the second one alone fails: three results, the
    second an error without a time, the others a success, each with the
    time of its own execution, and 2 successes and 1 failure in the
    summary. *)
Lemma V2_mixed_batch w r1 r2 r3 ga v1 v2 v3 o1 o2 o3 :
  every_promise_settles (order w) 3 →
  V2.executeRequest w 0 r1 ga = (Normal v1, o1) →
  V2.executeRequest w 1 r2 ga = (Normal v2, o2) →
  V2.executeRequest w 2 r3 ga = (Normal v3, o3) →
  V2.res_status v1 = "success" → V2.res_status v2 = "error" →
  V2.res_status v3 = "success" →
  ∃ rep out,
    V2.runConcurrentRequests w [r1; r2; r3] ga = Some (Normal rep, out) ∧
    V2.sum_name <$> V2.results rep = [name r1; name r2; name r3] ∧
    V2.sum_status <$> V2.results rep = ["success"; "error"; "success"] ∧
    V2.sum_timeTaken <$> V2.results rep
    = [Some (toFixed2 (now w 0 AfterSettle - now w 0 AtEntry)); None;
       Some (toFixed2 (now w 2 AfterSettle - now w 2 AtEntry))] ∧
    V2.successCount rep = 2%nat ∧ V2.failureCount rep = 1%nat.
Proof.
  intros Hall H1 H2 H3 Hs1 Hs2 Hs3.
  destruct (V2_run_settled w [r1; r2; r3] ga Hall) as [out ->].
  eexists _, _. split; [done|].
  pose proof (V2_success_time w 0 r1 ga) as Ht1.
  pose proof (V2_success_time w 2 r3 ga) as Ht3.
  unfold V2.report_of. cbn [imap compose].
  rewrite (V2_settled_value_eq _ _ _ _ _ _ H1) in *.
  rewrite (V2_settled_value_eq _ _ _ _ _ _ H2) in *.
  rewrite (V2_settled_value_eq _ _ _ _ _ _ H3) in *.
  assert (Hok1 : V2.is_success v1 = true) by (unfold V2.is_success; by rewrite Hs1).
  assert (Hok2 : V2.is_success v2 = false) by (unfold V2.is_success; by rewrite Hs2).
  assert (Hok3 : V2.is_success v3 = true) by (unfold V2.is_success; by rewrite Hs3).
  rewrite Hok1 in Ht1. rewrite Hok3 in Ht3.
  rewrite !filter_cons, !filter_nil.
  cbn [V2.results V2.successCount V2.failureCount zip_with fmap list_fmap].
  unfold V2.entry_of. rewrite Hok1, Hok2, Hok3. simpl.
  rewrite Ht1, Ht3 by done. done.
Qed.

(** The empty batch: no result, and a summary of zeros. *)
Lemma empty_batch w ga :
  V1.runConcurrentRequests w [] ga
  = Some (Normal {| V1.results := []; V1.totalRequests := 0;
                    V1.successCount := 0; V1.failureCount := 0;
                    V1.totalTime := batchEnd w - batchStart w;
                    V1.avgTime := Some 0%Q |}, []) ∧
  V2.runConcurrentRequests w [] ga
  = Some (Normal {| V2.results := []; V2.totalRequests := 0;
                    V2.successCount := 0; V2.failureCount := 0;
                    V2.totalTime := batchEnd w - batchStart w;
                    V2.avgTime := Some 0%Q |}, []).
Proof.
  assert (Hall : every_promise_settles (order w) 0) by (intros i Hi; lia).
  unfold V1.runConcurrentRequests, V2.runConcurrentRequests. simpl.
  rewrite !allSettled_complete by done. done.
Qed.

(** A global Bearer token on a request without auth of its own, and Basic
    credentials. *)
Lemma bearer_and_basic_scenarios :
  prepareHeaders [] None (Some (bearer_auth (Some [param "token" "abc"])))
  = (Normal {[ "Authorization" := "Bearer abc" ]}, []) ∧
  prepareHeaders [] None (Some (basic_auth "u" "p"))
  = (Normal {[ "Authorization" := "Basic dTpw" ]}, []).
Proof. split; reflexivity. Qed.

(** * Further properties *)

(** ** Placeholders *)

Lemma string_app_cons (x : ascii) (a b : string) :
  String x a +:+ b = String x (a +:+ b).
Proof. reflexivity. Qed.

Lemma string_app_assoc (a b c : string) : (a +:+ b) +:+ c = a +:+ b +:+ c.
Proof.
  induction a as [|x a IH]; [done|]. rewrite !string_app_cons. by f_equal.
Qed.

Lemma string_length_app (a b : string) :
  String.length (a +:+ b) = (String.length a + String.length b)%nat.
Proof.
  induction a as [|x a IH]; [done|]. rewrite string_app_cons. simpl.
  by rewrite IH.
Qed.

Lemma opens_Some s r : opens s = Some r → s = "{{" +:+ r.
Proof.
  destruct s as [|c1 [|c2 s]]; simpl; try discriminate.
  destruct (Ascii.eqb_spec c1 "{"), (Ascii.eqb_spec c2 "{"); simpl;
    try discriminate. intros [= ->]. by subst.
Qed.

Lemma closes_Some s r : closes s = Some r → s = "}}" +:+ r.
Proof.
  destruct s as [|c1 [|c2 s]]; simpl; try discriminate.
  destruct (Ascii.eqb_spec c1 "}"), (Ascii.eqb_spec c2 "}"); simpl;
    try discriminate. intros [= ->]. by subst.
Qed.

Lemma scan_key_unfold s :
  scan_key s =
  match closes s with
  | Some rest => Some (EmptyString, rest)
  | None =>
      if line_terminator_at s then None
      else match s with
           | String c s' =>
               match scan_key s' with
               | Some (k, rest) => Some (String c k, rest)
               | None => None
               end
           | EmptyString => None
           end
  end.
Proof. by destruct s. Qed.

Lemma scan_key_Some s k r :
  scan_key s = Some (k, r) → s = k +:+ "}}" +:+ r.
Proof.
  revert k. induction s as [|c s IH]; intros k; rewrite scan_key_unfold.
  - simpl. discriminate.
  - destruct (closes (String c s)) as [rest|] eqn:Hc.
    + intros [= <- <-]. by apply closes_Some.
    + destruct (line_terminator_at _); [discriminate|].
      destruct (scan_key s) as [[k' r']|]; [|discriminate].
      intros [= <- <-]. rewrite string_app_cons. f_equal. by apply IH.
Qed.

Lemma placeholder_at_Some s k r :
  placeholder_at s = Some (k, r) →
  s = "{{" +:+ k +:+ "}}" +:+ r ∧ (String.length r < String.length s)%nat.
Proof.
  unfold placeholder_at. destruct (opens s) as [t|] eqn:Ho; [|discriminate].
  intros Hk. apply opens_Some in Ho as ->. apply scan_key_Some in Hk as ->.
  split; [done|]. rewrite !string_length_app. simpl. lia.
Qed.

Lemma bind_fst {A B} (m : eff A) (k : A → eff B) :
  (bind m k).1 = match m.1 with Normal a => (k a).1 | Throw e => Throw e end.
Proof. destruct m as [[a|e] o]; simpl; [|done]. by destruct (k a). Qed.

Lemma bind_Normal {A B} (m : eff A) (k : A → eff B) a o b o' :
  m = (Normal a, o) → k a = (Normal b, o') →
  bind m k = (Normal b, o ++ o').
Proof. intros -> Hk. simpl. by rewrite Hk. Qed.

Lemma substitute_Normal env k :
  ∃ v o, substitute env k = (Normal v, o).
Proof.
  unfold substitute. destruct (present (env_value env k)); simpl; eauto.
Qed.

Lemma replace_from_Normal env n s :
  ∃ out o, replace_from n env s = (Normal out, o).
Proof.
  revert s. induction n as [|n IH]; intros s; simpl; [by eexists _, _|].
  destruct (placeholder_at s) as [[k rest]|].
  - destruct (substitute_Normal env k) as (v & o1 & ->).
    destruct (IH rest) as (out & o2 & ->). simpl. eauto.
  - destruct s as [|c s]; [by eexists _, _|].
    destruct (IH s) as (out & o2 & ->). simpl. eauto.
Qed.

(** More fuel than the length of the text changes nothing. *)
Lemma replace_from_fuel env n m s :
  (String.length s ≤ n)%nat → (String.length s ≤ m)%nat →
  replace_from n env s = replace_from m env s.
Proof.
  revert m s. induction n as [|n IH]; intros m s Hn Hm.
  - destruct s; simpl in Hn; [|lia]. by destruct m.
  - destruct m as [|m].
    { destruct s; simpl in Hm; [|lia]. done. }
    simpl. destruct (placeholder_at s) as [[k rest]|] eqn:Hp.
    + apply placeholder_at_Some in Hp as [_ Hlt].
      by rewrite (IH m rest) by lia.
    + destruct s as [|c s]; [done|]. simpl in Hn, Hm.
      by rewrite (IH m s) by lia.
Qed.

Lemma substitute_unset env k :
  present (env_value env k) = false →
  substitute env k
  = (Normal ("{{" +:+ k +:+ "}}"),
     ["Environment variable not found: " +:+ k]).
Proof. unfold substitute. by intros ->. Qed.

Lemma substitute_set env k v :
  env !! k = Some v → v ≠ "" → substitute env k = (Normal v, []).
Proof.
  intros Hk Hv. unfold substitute, env_value. rewrite Hk.
  apply present_Some in Hv. by rewrite Hv.
Qed.

(** X1: when no key of a placeholder of the text has a value (the
    environment has no variable of that name with a text that is not
    empty, and the name is not that of a member every object inherits),
    every placeholder is kept, the text comes out as it went in, and one
    warning is written for each placeholder, in the order of the text. *)
Theorem replacePlaceholders_unset_keeps_text env s :
  Forall (λ k, present (env_value env k) = false) (placeholder_keys s) →
  replacePlaceholders env s = (Normal s, not_found <$> placeholder_keys s).
Proof.
  unfold replacePlaceholders, placeholder_keys.
  generalize (String.length s) as n. intros n. revert s.
  induction n as [|n IH]; intros s Hunset; simpl in *; [done|].
  destruct (placeholder_at s) as [[k rest]|] eqn:Hp.
  - apply placeholder_at_Some in Hp as [-> _].
    apply Forall_cons in Hunset as [Hk Hrest].
    rewrite (substitute_unset _ _ Hk), (IH rest Hrest). simpl.
    rewrite app_nil_r. f_equal. f_equal. by rewrite !string_app_assoc.
  - destruct s as [|c s]; [done|]. rewrite (IH s Hunset). simpl.
    by rewrite app_nil_r.
Qed.

Lemma replacePlaceholders_unset_keeps_text_witness :
  replacePlaceholders {[ "ID" := "" ]} "{{BASE_URL}}/users/{{ID}}"
  = (Normal "{{BASE_URL}}/users/{{ID}}",
     ["Environment variable not found: BASE_URL";
      "Environment variable not found: ID"]).
Proof.
  apply (replacePlaceholders_unset_keeps_text {[ "ID" := "" ]}
           "{{BASE_URL}}/users/{{ID}}").
  vm_compute. repeat constructor.
Defined.

Lemma occurs_tail p c s : occurs p s → occurs p (String c s).
Proof. intros (pre & post & ->). by exists (String c pre), post. Qed.

(** X2: a text in which ["{{"] does not occur is left as it is, with no
    warning, whatever the environment holds. *)
Theorem replacePlaceholders_no_placeholder env s :
  ¬ occurs "{{" s → replacePlaceholders env s = (Normal s, []).
Proof.
  unfold replacePlaceholders.
  generalize (String.length s) as n. intros n. revert s.
  induction n as [|n IH]; intros s Hno; simpl; [done|].
  assert (Hp : placeholder_at s = None).
  { unfold placeholder_at. destruct (opens s) as [r|] eqn:Ho; [|done].
    exfalso. apply Hno. exists "", r. by apply opens_Some in Ho. }
  rewrite Hp. destruct s as [|c s]; [done|].
  rewrite IH; [done|]. intros H. by apply Hno, occurs_tail.
Qed.

Lemma replacePlaceholders_no_placeholder_witness :
  replacePlaceholders {[ "a" := "b" ]} "{a}" = (Normal "{a}", []).
Proof.
  apply (replacePlaceholders_no_placeholder {[ "a" := "b" ]} "{a}").
  intros (pre & post & H).
  destruct pre as [|c1 [|c2 [|c3 [|c4 pre]]]]; cbv in H; discriminate H.
Defined.

Lemma scan_key_plain k post :
  plain_key k = true → scan_key (k +:+ "}}" +:+ post) = Some (k, post).
Proof.
  induction k as [|c k IH]; intros Hk.
  - by rewrite scan_key_unfold.
  - simpl in Hk. repeat (apply andb_prop in Hk as [Hk ?]).
    rewrite string_app_cons, scan_key_unfold.
    assert (Hc : closes (String c (k +:+ "}}" +:+ post)) = None).
    { unfold closes. destruct (k +:+ "}}" +:+ post); [done|].
      by destruct (Ascii.eqb c "}"). }
    assert (Ht : line_terminator_at (String c (k +:+ "}}" +:+ post)) = false).
    { unfold line_terminator_at.
      destruct (Ascii.eqb c "010"), (Ascii.eqb c "013"), (Ascii.eqb c "226");
        try done. by destruct (k +:+ "}}" +:+ post) as [|? [|? ?]]. }
    by rewrite Hc, Ht, IH.
Qed.

Lemma replace_from_S env n s :
  replace_from (S n) env s =
  match placeholder_at s with
  | Some (k, rest) =>
      let* v := substitute env k in
      let* out := replace_from n env rest in
      ret (v +:+ out)
  | None =>
      match s with
      | EmptyString => ret EmptyString
      | String c s' =>
          let* out := replace_from n env s' in
          ret (String c out)
      end
  end.
Proof. reflexivity. Qed.

Lemma replace_from_prefix env pre t n out o :
  no_opening_brace pre = true →
  (String.length t ≤ n)%nat →
  replace_from n env t = (Normal out, o) →
  ∀ m, (String.length (pre +:+ t) ≤ m)%nat →
       replace_from m env (pre +:+ t) = (Normal (pre +:+ out), o).
Proof.
  intros Hpre Hn Ht. induction pre as [|c pre IH]; intros m Hm.
  - change (replace_from m env t = (Normal out, o)).
    by rewrite (replace_from_fuel env m n t).
  - simpl in Hpre. apply andb_prop in Hpre as [Hc Hpre].
    rewrite !string_app_cons in *. simpl in Hm.
    destruct m as [|m]; [lia|]. cbn [replace_from].
    assert (Hp : placeholder_at (String c (pre +:+ t)) = None).
    { unfold placeholder_at, opens. destruct (pre +:+ t); [done|].
      by destruct (Ascii.eqb c "{"). }
    rewrite Hp, (IH Hpre m) by lia. simpl. by rewrite app_nil_r.
Qed.

(** X3: a placeholder whose variable has a non-empty value is replaced by
    that value, the text before it (with no opening brace) is kept, and
    the text after it is treated in the same way, with its warnings. *)
Theorem replacePlaceholders_substitutes env pre k post v out o :
  no_opening_brace pre = true → plain_key k = true →
  env !! k = Some v → v ≠ "" →
  replacePlaceholders env post = (Normal out, o) →
  replacePlaceholders env (pre +:+ "{{" +:+ k +:+ "}}" +:+ post)
  = (Normal (pre +:+ v +:+ out), o).
Proof.
  intros Hpre Hk Hv Hne Hpost. unfold replacePlaceholders in *.
  apply (replace_from_prefix env pre _
           (S (S (String.length (k +:+ "}}" +:+ post))))); [done| | |done].
  { apply Nat.eq_le_incl. reflexivity. }
  rewrite replace_from_S.
  assert (Hp : placeholder_at ("{{" +:+ k +:+ "}}" +:+ post) = Some (k, post)).
  { unfold placeholder_at. rewrite !string_app_cons. simpl opens.
    by apply scan_key_plain. }
  rewrite Hp, (substitute_set _ _ _ Hv Hne).
  rewrite (replace_from_fuel env _ (String.length post) post), Hpost
    by (rewrite ?string_length_app; lia).
  simpl. by rewrite app_nil_r.
Qed.

Lemma replacePlaceholders_substitutes_witness :
  replacePlaceholders {[ "BASE_URL" := "https://api.example.com" ]}
    ("GET " +:+ "{{" +:+ "BASE_URL" +:+ "}}" +:+ "/users")
  = (Normal ("GET " +:+ "https://api.example.com" +:+ "/users"), []).
Proof.
  apply (replacePlaceholders_substitutes
           {[ "BASE_URL" := "https://api.example.com" ]}
           "GET " "BASE_URL" "/users" "https://api.example.com" "/users" []);
    [reflexivity|reflexivity|reflexivity|discriminate|reflexivity].
Defined.

Lemma occurs_cons_inv p c k :
  occurs p (String c k) →
  (∃ post, String c k = p +:+ post) ∨ occurs p k.
Proof.
  intros (pre & post & H). destruct pre as [|c' pre].
  - left. by exists post.
  - right. rewrite string_app_cons in H. injection H as _ ->.
    by exists pre, post.
Qed.

Lemma scan_key_shortest s k r :
  scan_key s = Some (k, r) →
  ¬ occurs "}}" k ∧ ¬ occurs (String "010" "") k
  ∧ ¬ occurs (String "013" "") k.
Proof.
  revert k. induction s as [|c s IH]; intros k; rewrite scan_key_unfold.
  - simpl. discriminate.
  - destruct (closes (String c s)) as [rest|] eqn:Hc.
    + intros [= <- <-].
      repeat split; intros (pre & post & H); by destruct pre.
    + destruct (line_terminator_at (String c s)) eqn:Ht; [discriminate|].
      destruct (scan_key s) as [[k' r']|] eqn:Hk; [|discriminate].
      intros [= <- <-]. destruct (IH k' eq_refl) as (H1 & H2 & H3).
      apply scan_key_Some in Hk.
      assert (Hlf : Ascii.eqb c "010" = false ∧ Ascii.eqb c "013" = false).
      { unfold line_terminator_at in Ht.
        by destruct (Ascii.eqb c "010"), (Ascii.eqb c "013"). }
      destruct Hlf as [Hlf Hcr].
      repeat split; intros [[post H]|H]%occurs_cons_inv; try done.
      * rewrite !string_app_cons in H. injection H as -> Hk'.
        subst k'. rewrite !string_app_cons in Hk. subst s.
        simpl in Hc. discriminate Hc.
      * rewrite string_app_cons in H. injection H as -> _.
        discriminate Hlf.
      * rewrite string_app_cons in H. injection H as -> _.
        discriminate Hcr.
Qed.

(** X4: the key of a placeholder is the shortest one: the text matched is
    ["{{"], the key and ["}}"], and the key, which is what is looked up in
    the environment, holds no ["}}"], no line feed and no carriage
    return. *)
Theorem placeholder_key_is_shortest s k r :
  placeholder_at s = Some (k, r) →
  s = "{{" +:+ k +:+ "}}" +:+ r ∧
  ¬ occurs "}}" k ∧ ¬ occurs (String "010" "") k
  ∧ ¬ occurs (String "013" "") k.
Proof.
  intros Hp. split; [by apply placeholder_at_Some in Hp as [? _]|].
  unfold placeholder_at in Hp. destruct (opens s); [|discriminate].
  by apply scan_key_shortest in Hp.
Qed.

Lemma placeholder_key_is_shortest_witness :
  "{{A}}}}" = "{{" +:+ "A" +:+ "}}" +:+ "}}" ∧ ¬ occurs "}}" "A".
Proof.
  destruct (placeholder_key_is_shortest "{{A}}}}" "A" "}}" eq_refl)
    as (Hs & Hk & _).
  split; [exact Hs|exact Hk].
Defined.

(** ** The collection *)

Lemma extract_each l acc :
  (fix each (l : list item) (acc : list parsed_request)
     : eff (list parsed_request) :=
     match l with
     | [] => ret acc
     | x :: l' => let* acc' := extract_item x acc in each l' acc'
     end) l acc
  = extractRequests l acc.
Proof.
  revert acc. induction l as [|x l IH]; intros acc; [done|].
  simpl. destruct (extract_item x acc) as [[a|e] o]; [|done].
  simpl. by rewrite IH.
Qed.

Lemma extract_item_unfold n rq sub acc :
  extract_item (Item n rq sub) acc =
  (let* requests1 :=
     match rq with
     | Some r => let* p := request_of n r in ret (acc ++ [p])
     | None => ret acc
     end in
   match sub with
   | Some l => extractRequests l requests1
   | None => ret requests1
   end).
Proof.
  simpl.
  destruct (match rq with Some r => _ | None => _ end) as [[a|e] o]; [|done].
  simpl. destruct sub as [l|]; [|done]. by rewrite extract_each.
Qed.

Lemma requests_each l :
  (fix each (l : list item) : list (string * item_request) :=
     match l with
     | [] => []
     | x :: l' => requests_of_item x ++ each l'
     end) l
  = requests_in l.
Proof. induction l as [|x l IH]; [done|]. simpl. by rewrite IH. Qed.

Lemma requests_of_item_unfold n rq sub :
  requests_of_item (Item n rq sub) =
  match rq with Some r => [(n, r)] | None => [] end
  ++ match sub with Some l => requests_in l | None => [] end.
Proof. simpl. destruct sub as [l|]; [|done]. by rewrite requests_each. Qed.

(** Induction over the tree of items. *)
Lemma item_tree_ind (P : item → Prop) :
  (∀ n rq sub,
     match sub with Some l => Forall P l | None => True end →
     P (Item n rq sub)) →
  ∀ it, P it.
Proof.
  intros H. fix IH 1. intros [n rq sub]. apply H.
  destruct sub as [l|]; [|exact I].
  induction l as [|x l IHl]; constructor; [apply IH|exact IHl].
Qed.

Lemma request_of_cases n r :
  (∃ u, ir_url r = Some u ∧
        request_of n r
        = (Normal {| pr_name := n; pr_method := ir_method r;
                     pr_url := raw_or_url u;
                     pr_headers := default [] (ir_header r);
                     pr_body := match ir_body r with
                                | Some b => body_raw b
                                | None => None
                                end;
                     pr_auth := ir_auth r |}, [])) ∨
  (ir_url r = None ∧
   request_of n r
   = (Throw (TypeError "Cannot read properties of undefined (reading 'raw')"),
      [])).
Proof. unfold request_of. destruct (ir_url r); eauto. Qed.

Lemma bind_pure {A B} (a : A) (k : A → eff B) : bind (Normal a, []) k = k a.
Proof. apply bind_ret. Qed.

Lemma push_all_app ps qs acc :
  push_all (ps ++ qs) acc = (let* a := push_all ps acc in push_all qs a).
Proof.
  revert acc. induction ps as [|[n r] ps IH]; intros acc.
  - simpl. by destruct (push_all qs acc).
  - simpl. destruct (request_of_cases n r) as [(u & _ & ->)|[_ ->]]; [|done].
    rewrite !bind_pure. apply IH.
Qed.

(** [extractRequests] pushes the requests of the tree in the order of the
    document, up to the first one without a url. *)
Lemma extract_item_push_all it acc :
  extract_item it acc = push_all (requests_of_item it) acc.
Proof.
  revert acc. induction it as [n rq sub IH] using item_tree_ind.
  intros acc. rewrite extract_item_unfold, requests_of_item_unfold.
  rewrite push_all_app.
  assert (Hsub : ∀ a,
    match sub with Some l => extractRequests l a | None => ret a end
    = push_all (match sub with Some l => requests_in l | None => [] end) a).
  { destruct sub as [l|]; [|done].
    induction IH as [|x l Hx _ IHl]; intros a; [done|].
    simpl. rewrite push_all_app, Hx.
    destruct (push_all (requests_of_item x) a) as [[b|e] o]; [|done].
    simpl. by rewrite IHl. }
  destruct rq as [r|]; cbn [push_all].
  - destruct (request_of_cases n r) as [(u & _ & ->)|[_ ->]]; [|done].
    rewrite ?bind_pure, ?bind_ret. apply Hsub.
  - rewrite ?bind_pure, ?bind_ret. apply Hsub.
Qed.

Lemma extractRequests_push_all l acc :
  extractRequests l acc = push_all (requests_in l) acc.
Proof.
  revert acc. induction l as [|x l IH]; intros acc; [done|].
  simpl. rewrite push_all_app, extract_item_push_all.
  destruct (push_all (requests_of_item x) acc) as [[b|e] o]; [|done].
  simpl. by rewrite IH.
Qed.

Lemma push_all_ok ps acc :
  Forall (λ nr, is_Some (ir_url nr.2)) ps →
  ∃ new, push_all ps acc = (Normal (acc ++ new), []) ∧
         Forall2 (λ nr p, request_of nr.1 nr.2 = (Normal p, [])) ps new ∧
         pr_name <$> new = fst <$> ps.
Proof.
  intros Hok. revert acc. induction Hok as [|[n r] ps [u Hu] _ IH]; intros acc.
  - exists []. by rewrite app_nil_r.
  - simpl in Hu. cbn [push_all].
    destruct (request_of_cases n r) as [(u' & _ & Hr)|[Hnone _]];
      [|congruence].
    rewrite Hr, bind_pure.
    match type of Hr with
    | _ = (Normal ?p, _) =>
        destruct (IH (acc ++ [p])) as (new & -> & Hall & Hnames);
        exists (p :: new)
    end.
    rewrite <-app_assoc. split; [done|].
    split; [by constructor|]. rewrite !fmap_cons. by rewrite Hnames.
Qed.

Lemma push_all_cases ps acc :
  (∃ new, push_all ps acc = (Normal (acc ++ new), [])) ∨
  push_all ps acc
  = (Throw (TypeError "Cannot read properties of undefined (reading 'raw')"),
     []).
Proof.
  revert acc. induction ps as [|[n r] ps IH]; intros acc.
  - left. exists []. by rewrite app_nil_r.
  - cbn [push_all].
    destruct (request_of_cases n r) as [(u & _ & ->)|[_ ->]]; [|by right].
    rewrite bind_pure.
    match goal with
    | |- context [push_all ps (acc ++ [?p])] =>
        destruct (IH (acc ++ [p])) as [[new ->] | ->]; [left|by right];
        exists (p :: new)
    end.
    by rewrite <-app_assoc.
Qed.

Lemma push_all_missing_url ps acc :
  Exists (λ nr, ir_url nr.2 = None) ps →
  push_all ps acc
  = (Throw (TypeError "Cannot read properties of undefined (reading 'raw')"),
     []).
Proof.
  intros Hex. revert acc. induction Hex as [[n r] ps Hu|[n r] ps _ IH];
    intros acc; cbn [push_all].
  - simpl in Hu. unfold request_of. by rewrite Hu.
  - destruct (request_of_cases n r) as [(u & _ & ->)|[_ ->]]; [|done].
    rewrite bind_pure. apply IH.
Qed.

(** X5: [parseCollection] throws "Invalid Postman collection format."
    exactly when the collection has no [info] or no [item]; an empty list of
    items is a valid collection with no request. *)
Theorem parseCollection_invalid_format_iff c :
  ((parseCollection c).1 = Throw invalid_format
   ↔ info c = None ∨ items c = None) ∧
  (∀ i, info c = Some i → items c = Some [] →
        parseCollection c
        = (Normal ({| gi_name := info_name i;
                      gi_auth := collection_auth c |}, []), [])).
Proof.
  unfold parseCollection. split.
  - destruct (info c) as [i|], (items c) as [l|]; simpl;
      try (split; [by auto|done]).
    rewrite extractRequests_push_all.
    destruct (push_all_cases (requests_in l) []) as [[new ->] | ->]; simpl.
    + split; [discriminate|]. by intros [|].
    + split; [discriminate|]. by intros [|].
  - by intros i -> ->.
Qed.

(** X6: for a collection in which every request has a url,
    [parseCollection] returns the name and the auth of the collection and
    one request for every item with a request, at any depth of the
    folders, in the order of the document (an item before the items of its
    folder), each with the name of its item. *)
Theorem parseCollection_document_order c i l :
  info c = Some i → items c = Some l →
  Forall (λ nr, is_Some (ir_url nr.2)) (requests_in l) →
  ∃ rs,
    parseCollection c
    = (Normal ({| gi_name := info_name i; gi_auth := collection_auth c |},
               rs), []) ∧
    Forall2 (λ nr p, request_of nr.1 nr.2 = (Normal p, []))
            (requests_in l) rs ∧
    pr_name <$> rs = fst <$> requests_in l.
Proof.
  intros Hi Hl Hok. unfold parseCollection. rewrite Hi, Hl.
  rewrite extractRequests_push_all.
  destruct (push_all_ok _ [] Hok) as (new & -> & Hall & Hnames).
  exists new. by rewrite bind_pure.
Qed.

(** X7: a request without a url, at any depth of the folders, makes
    [parseCollection] throw a TypeError: no request of the collection is
    returned. *)
Theorem parseCollection_missing_url_aborts c i l :
  info c = Some i → items c = Some l →
  Exists (λ nr, ir_url nr.2 = None) (requests_in l) →
  parseCollection c
  = (Throw (TypeError "Cannot read properties of undefined (reading 'raw')"),
     []).
Proof.
  intros Hi Hl Hex. unfold parseCollection. rewrite Hi, Hl.
  rewrite extractRequests_push_all.
  by rewrite (push_all_missing_url _ _ Hex).
Qed.

Lemma parseCollection_invalid_format_iff_witness :
  (parseCollection {| info := None; items := Some sample_items;
                      collection_auth := None |}).1
  = Throw invalid_format ∧
  parseCollection {| info := Some {| info_name := Some "Testing" |};
                     items := Some []; collection_auth := None |}
  = (Normal ({| gi_name := Some "Testing"; gi_auth := None |}, []), []).
Proof.
  split.
  - apply (parseCollection_invalid_format_iff
             {| info := None; items := Some sample_items;
                collection_auth := None |}).
    left. reflexivity.
  - destruct (parseCollection_invalid_format_iff
                {| info := Some {| info_name := Some "Testing" |};
                   items := Some []; collection_auth := None |})
      as [_ Hempty].
    exact (Hempty {| info_name := Some "Testing" |} eq_refl eq_refl).
Defined.

Lemma parseCollection_document_order_witness :
  ∃ rs,
    parseCollection sample_collection
    = (Normal ({| gi_name := Some "Testing";
                  gi_auth := Some (bearer_auth (Some [param "token" "abc"])) |},
               rs), []) ∧
    pr_name <$> rs
    = ["List users"; "Get admin"; "Get audit log"; "Health"].
Proof.
  destruct (parseCollection_document_order sample_collection
              {| info_name := Some "Testing" |} sample_items
              eq_refl eq_refl) as (rs & Hrun & _ & Hnames).
  - vm_compute. repeat (constructor; [eexists; reflexivity|]). constructor.
  - exists rs. split; [exact Hrun|exact Hnames].
Defined.

Lemma parseCollection_missing_url_aborts_witness :
  parseCollection broken_collection
  = (Throw (TypeError "Cannot read properties of undefined (reading 'raw')"),
     []).
Proof.
  apply (parseCollection_missing_url_aborts broken_collection
           {| info_name := Some "Testing" |}
           [get_item "List users" "https://api.example.com/users" None;
            Item "Admin" None (Some [broken_item "No url"])]
           eq_refl eq_refl).
  vm_compute. apply Exists_cons_tl, Exists_cons_hd. reflexivity.
Defined.

Lemma push_all_acc ps acc :
  push_all ps acc
  = (match (push_all ps []).1 with
     | Normal new => Normal (acc ++ new)
     | Throw e => Throw e
     end, (push_all ps []).2).
Proof.
  revert acc. induction ps as [|[k r] ps IH]; intros acc.
  - simpl. by rewrite app_nil_r.
  - cbn [push_all].
    destruct (request_of_cases k r) as [(u & _ & ->)|[_ ->]]; [|done].
    rewrite !bind_pure.
    match goal with
    | |- context [push_all ps (acc ++ [?p])] =>
        rewrite (IH (acc ++ [p])), (IH ([] ++ [p]))
    end.
    destruct (push_all ps []) as [[new|e] o]; simpl; [|done].
    by rewrite <-app_assoc.
Qed.

(** X8: [extractRequests] only appends to the array it is given: the
    requests already there stay, and what is appended does not depend on
    them; the items of a list are treated one list after the other, and a
    folder that is not a request itself gives just the requests of its
    items. *)
Theorem extractRequests_appends l l' acc n :
  extractRequests l acc
  = (match (extractRequests l []).1 with
     | Normal new => Normal (acc ++ new)
     | Throw e => Throw e
     end, (extractRequests l []).2) ∧
  extractRequests (l ++ l') acc
  = (let* a := extractRequests l acc in extractRequests l' a) ∧
  extractRequests [Item n None (Some l)] acc = extractRequests l acc.
Proof.
  split; [|split].
  - rewrite !extractRequests_push_all. apply push_all_acc.
  - revert acc. induction l as [|x l IH]; intros acc.
    + simpl. by destruct (extractRequests l' acc).
    + simpl. destruct (extract_item x acc) as [[a|e] o]; [|done].
      simpl. rewrite IH.
      destruct (extractRequests l a) as [[b|e] o2]; simpl; [|done].
      destruct (extractRequests l' b) as [r o3]. by rewrite app_assoc.
  - cbn [extractRequests]. rewrite extract_item_unfold, bind_ret.
    destruct (extractRequests l acc) as [[b|e] o]; simpl;
      by rewrite ?app_nil_r.
Qed.

(** ** The header object *)

Lemma reduce_headers_lookup hs k :
  k ≠ "__proto__" →
  reduce_headers hs !! k = snd <$> last (filter (λ kv, kv.1 = k) hs).
Proof.
  intros Hproto. induction hs as [|[k' v'] hs IH] using rev_ind; [done|].
  rewrite reduce_headers_snoc, filter_app.
  destruct (decide (k' = k)) as [->|Hk].
  - rewrite set_property_ne, lookup_insert_eq by done.
    rewrite filter_cons_True by done. rewrite filter_nil.
    by rewrite last_snoc.
  - rewrite set_property_lookup_ne by done.
    rewrite filter_cons_False by done. by rewrite filter_nil, app_nil_r.
Qed.

Lemma reduce_headers_proto hs : reduce_headers hs !! "__proto__" = None.
Proof.
  induction hs as [|[k' v'] hs IH] using rev_ind; [done|].
  rewrite reduce_headers_snoc. by apply set_property_proto.
Qed.

(** X9: the header object built from the header list of a request holds,
    for every key other than "__proto__", the value of the last header of
    the list with that key, and no value for a key that is not in the list;
    a header named "__proto__" gives the object no member, whatever the
    list is. *)
Theorem reduce_headers_last_wins hs k :
  (k ≠ "__proto__" →
   reduce_headers hs !! k = snd <$> last (filter (λ kv, kv.1 = k) hs) ∧
   (reduce_headers hs !! k = None ↔ k ∉ hs.*1)) ∧
  reduce_headers hs !! "__proto__" = None.
Proof.
  split; [|apply reduce_headers_proto].
  intros Hproto. split; [by apply reduce_headers_lookup|].
  rewrite reduce_headers_lookup, fmap_None, last_None by done.
  split.
  - intros Hnil [[k' v] [Hk Hin]]%list_elem_of_fmap. simpl in Hk. subst k'.
    assert (Hf : (k, v) ∈ filter (λ kv, kv.1 = k) hs)
      by (by apply list_elem_of_filter).
    rewrite Hnil in Hf. by apply elem_of_nil in Hf.
  - intros Hnot.
    destruct (filter (λ kv, kv.1 = k) hs) as [|[k' v] l] eqn:Hf; [done|].
    assert (Hin : (k', v) ∈ filter (λ kv, kv.1 = k) hs)
      by (rewrite Hf; left).
    apply list_elem_of_filter in Hin as [Hk Hin]. simpl in Hk. subst k'.
    exfalso. apply Hnot. apply list_elem_of_fmap. by exists (k, v).
Qed.

Lemma reduce_headers_last_wins_witness :
  reduce_headers [("Accept", "a"); ("__proto__", "1"); ("Accept", "b")]
    !! "Accept" = Some "b" ∧
  reduce_headers [("Accept", "a"); ("__proto__", "1"); ("Accept", "b")]
    !! "Y" = None ∧
  reduce_headers [("Accept", "a"); ("__proto__", "1"); ("Accept", "b")]
    !! "__proto__" = None.
Proof.
  split; [|split].
  - destruct (reduce_headers_last_wins
                [("Accept", "a"); ("__proto__", "1"); ("Accept", "b")]
                "Accept") as [Hlast _].
    destruct Hlast as [-> _]; [discriminate|]. reflexivity.
  - destruct (reduce_headers_last_wins
                [("Accept", "a"); ("__proto__", "1"); ("Accept", "b")]
                "Y") as [Hlast _].
    destruct Hlast as [_ Hnone]; [discriminate|]. apply Hnone.
    intros Hin. simpl in Hin.
    repeat (apply elem_of_cons in Hin as [Hin|Hin]; [discriminate Hin|]).
    by apply elem_of_nil in Hin.
  - apply (reduce_headers_last_wins
             [("Accept", "a"); ("__proto__", "1"); ("Accept", "b")] "Y").
Defined.

(** X10: the auth that applies overrides a header "Authorization" that the
    request declares: with a Bearer auth that has a first parameter, or a
    Basic auth that has its credentials, the prepared headers hold the
    header of the auth (a missing value reads "undefined"), at every other
    key but "__proto__" the last header the request declares, and nothing
    at "__proto__". *)
Theorem auth_overrides_declared_header hs ra ga a :
  effective_auth ra ga = Some a →
  (type a = "bearer" →
   ∀ first rest, bearer a = Some (first :: rest) →
     ∃ h', prepareHeaders hs ra ga = (Normal h', []) ∧
           h' !! "Authorization"
           = Some ("Bearer " +:+ template (value first)) ∧
           (∀ k, k ≠ "Authorization" → k ≠ "__proto__" →
                 h' !! k = snd <$> last (filter (λ kv, kv.1 = k) hs)) ∧
           h' !! "__proto__" = None) ∧
  (type a = "basic" →
   ∀ c, basic a = Some c →
     ∃ h', prepareHeaders hs ra ga = (Normal h', []) ∧
           h' !! "Authorization"
           = Some ("Basic " +:+ base64 (template (username c) +:+ ":"
                                        +:+ template (password c))) ∧
           (∀ k, k ≠ "Authorization" → k ≠ "__proto__" →
                 h' !! k = snd <$> last (filter (λ kv, kv.1 = k) hs)) ∧
           h' !! "__proto__" = None).
Proof.
  intros Heff. unfold prepareHeaders. rewrite Heff.
  split; intros Ht.
  - intros first rest Hb.
    rewrite applyAuth_bearer, (bearer_handler_sets _ a first rest) by done.
    eexists. split; [done|]. split; [by rewrite lookup_insert_eq|]. split.
    + intros k Hk Hproto. by rewrite lookup_insert_ne, reduce_headers_lookup.
    + by rewrite lookup_insert_ne, reduce_headers_proto.
  - intros c Hc.
    rewrite applyAuth_basic, (basic_handler_sets _ a c) by done.
    eexists. split; [done|]. split; [by rewrite lookup_insert_eq|]. split.
    + intros k Hk Hproto. by rewrite lookup_insert_ne, reduce_headers_lookup.
    + by rewrite lookup_insert_ne, reduce_headers_proto.
Qed.

Lemma auth_overrides_declared_header_witness :
  ∃ h',
    prepareHeaders [("Authorization", "Bearer stale"); ("Accept", "a");
                    ("__proto__", "x"); ("Accept", "b")]
                   None (Some (basic_auth "u" "p"))
    = (Normal h', []) ∧
    h' !! "Authorization" = Some "Basic dTpw" ∧
    h' !! "Accept" = Some "b" ∧
    h' !! "__proto__" = None.
Proof.
  destruct (auth_overrides_declared_header
              [("Authorization", "Bearer stale"); ("Accept", "a");
               ("__proto__", "x"); ("Accept", "b")]
              None (Some (basic_auth "u" "p")) (basic_auth "u" "p") eq_refl)
    as [_ Hbasic].
  destruct (Hbasic eq_refl {| username := Some "u"; password := Some "p" |}
              eq_refl) as (h' & Hrun & Hauth & Hother & Hproto).
  exists h'. split; [exact Hrun|]. split; [exact Hauth|].
  split; [|exact Hproto].
  rewrite (Hother "Accept") by discriminate. reflexivity.
Defined.

Lemma authHandlers_unknown h t :
  t ≠ "apikey" → t ≠ "bearer" → t ≠ "basic" → inherited_member t = false →
  authHandlers h t = None.
Proof.
  intros H1 H2 H3 H4. unfold authHandlers.
  apply String.eqb_neq in H1, H2, H3. by rewrite H1, H2, H3, H4.
Qed.

(** X11: an auth object of a type that the table of handlers has no member
    for (a type other than "apikey", "bearer" and "basic" that is not the
    name of a member every object inherits, such as "constructor",
    "toString" or "__proto__") leaves the headers as they are and writes
    one warning that names the type; a request with this auth still goes to
    the transport and is a success when the transport answers. *)
Theorem unknown_auth_type_warns h a :
  type a ≠ "apikey" → type a ≠ "bearer" → type a ≠ "basic" →
  inherited_member (type a) = false →
  applyAuth h (Some a)
  = (Normal h, ["Unsupported auth type: " +:+ type a]) ∧
  ∀ w i rq ga m resp,
    effective_auth (req_auth rq) ga = Some a → method rq = Some m →
    (axios w i {| c_method := toLowerCase m; c_url := url rq;
                  c_headers := reduce_headers (headers rq);
                  c_data := body_or_null (body rq) |} = Resolve resp →
     ∃ v out, V1.executeRequest w i rq ga = (Normal v, out) ∧
              V1.res_status v = "success") ∧
    (axios w i {| c_method := toLowerCase m; c_url := url rq;
                  c_headers :=
                    reduce_headers (headers rq) ∪ V2.COMMON_HEADERS;
                  c_data := body_or_null (body rq) |} = Resolve resp →
     ∃ v out, V2.executeRequest w i rq ga = (Normal v, out) ∧
              V2.res_status v = "success").
Proof.
  intros H1 H2 H3 H4.
  assert (Happ : ∀ h0, applyAuth h0 (Some a)
                       = (Normal h0, ["Unsupported auth type: " +:+ type a])).
  { intros h0. unfold applyAuth. by rewrite authHandlers_unknown. }
  split; [apply Happ|].
  intros w i rq ga m resp Heff Hm.
  assert (Hprep : prepareHeaders (headers rq) (req_auth rq) ga
                  = (Normal (reduce_headers (headers rq)),
                     ["Unsupported auth type: " +:+ type a])).
  { unfold prepareHeaders. by rewrite Heff, Happ. }
  split; intros Hax.
  - destruct (V1_executeRequest_value w i rq ga) as [out Hv].
    eexists _, _. split; [exact Hv|]. by eapply V1_settled_resolved.
  - destruct (V2_executeRequest_value w i rq ga) as [out Hv].
    eexists _, _. split; [exact Hv|]. by eapply V2_settled_resolved.
Qed.

Lemma unknown_auth_type_warns_witness :
  applyAuth {[ "Accept" := "text/plain" ]}
    (Some {| type := "oauth2"; apikey := None; bearer := None;
             basic := None |})
  = (Normal {[ "Accept" := "text/plain" ]},
     ["Unsupported auth type: oauth2"]).
Proof.
  apply (unknown_auth_type_warns {[ "Accept" := "text/plain" ]}
           {| type := "oauth2"; apikey := None; bearer := None;
              basic := None |}); [discriminate..|reflexivity].
Defined.

Lemma set_property_idemp k v h :
  set_property k v (set_property k v h) = set_property k v h.
Proof.
  unfold set_property. destruct (String.eqb k "__proto__"); [done|].
  by rewrite insert_insert_eq.
Qed.

Lemma apikey_handler_cases h a :
  (∃ e, apikey_handler h a = (Throw e, [])) ∨
  (∃ k v, apikey_handler h a = (Normal (set_property k v h), []) ∧
          ∀ h0, apikey_handler h0 a = (Normal (set_property k v h0), [])) ∨
  (apikey_handler h a = (Normal h, [apikey_warning]) ∧
   ∀ h0, apikey_handler h0 a = (Normal h0, [apikey_warning])).
Proof.
  unfold apikey_handler. destruct (apikey a) as [es|]; [|eauto].
  destruct (_ && _); eauto 10.
Qed.

(** X12: [applyAuth] either changes the headers or writes a warning, never
    both: when it returns with a warning (there is never more than one) the
    headers are those it was given, and when it throws it has written
    nothing. *)
Theorem applyAuth_warns_or_changes h a :
  match applyAuth h a with
  | (Normal h', out) => out = [] ∨ (h' = h ∧ ∃ msg, out = [msg])
  | (Throw _, out) => out = []
  end.
Proof.
  destruct a as [a|]; [|by left]. unfold applyAuth, authHandlers.
  destruct (String.eqb (type a) "apikey").
  { destruct (apikey_handler_cases h a)
      as [[e ->]|[(k & v & -> & _)|[-> _]]]; simpl; eauto 10. }
  destruct (String.eqb (type a) "bearer").
  { unfold bearer_handler.
    destruct (bearer a) as [[|first rest]|]; simpl; eauto. }
  destruct (String.eqb (type a) "basic").
  { unfold basic_handler. destruct (basic a); simpl; eauto. }
  destruct (inherited_member (type a)); [|simpl; eauto 10].
  unfold inherited_handler.
  repeat (destruct (_ || _) || destruct (String.eqb _ _)); simpl; eauto.
Qed.

(** X13: applying the same auth a second time changes nothing: the headers
    that [applyAuth] returned come back as they are, with the same
    warnings. *)
Theorem applyAuth_idempotent h a h' out :
  applyAuth h a = (Normal h', out) → applyAuth h' a = (Normal h', out).
Proof.
  destruct a as [a|]; [|by intros [= <- <-]]. unfold applyAuth, authHandlers.
  destruct (String.eqb (type a) "apikey").
  { destruct (apikey_handler_cases h a)
      as [[e ->]|[(k & v & -> & Hall)|[-> Hall]]]; [done| |].
    - intros [= <- <-]. by rewrite Hall, set_property_idemp.
    - intros [= <- <-]. by rewrite Hall. }
  destruct (String.eqb (type a) "bearer").
  { unfold bearer_handler. destruct (bearer a) as [[|first rest]|]; try done.
    intros [= <- <-]. by rewrite insert_insert_eq. }
  destruct (String.eqb (type a) "basic").
  { unfold basic_handler. destruct (basic a); [|done].
    intros [= <- <-]. by rewrite insert_insert_eq. }
  destruct (inherited_member (type a)); [|simpl; by intros [= <- <-]].
  unfold inherited_handler.
  repeat (destruct (_ || _) || destruct (String.eqb _ _)); try done.
  by intros [= <- <-].
Qed.

Lemma applyAuth_idempotent_witness :
  applyAuth (<["Authorization" := "Bearer abc"]> {[ "Accept" := "a" ]})
            (Some (bearer_auth (Some [param "token" "abc"])))
  = (Normal (<["Authorization" := "Bearer abc"]> {[ "Accept" := "a" ]}), []).
Proof.
  apply (applyAuth_idempotent {[ "Accept" := "a" ]}
           (Some (bearer_auth (Some [param "token" "abc"])))).
  reflexivity.
Defined.

(** ** The request executor, once more *)

Lemma V1_executeRequest_sent w i rq ga h o m :
  prepareHeaders (headers rq) (req_auth rq) ga = (Normal h, o) →
  method rq = Some m →
  V1.executeRequest w i rq ga
  = (match axios w i {| c_method := toLowerCase m; c_url := url rq;
                        c_headers := h;
                        c_data := body_or_null (body rq) |} with
     | Resolve r =>
         Normal {| V1.res_name := name rq; V1.res_status := "success";
                   V1.res_data := data r; V1.res_error := JUndefined;
                   V1.res_timeTaken :=
                     Some (toFixed2 (now w i AfterSettle - now w i AtEntry)) |}
     | Reject e => Normal (V1.error_result w i rq (now w i AtEntry) e)
     end, o).
Proof.
  intros Hh Hm.
  unfold V1.executeRequest, V1.attempt, V1.recover, method_toLowerCase.
  rewrite Hh, Hm. unfold bind at 1. rewrite bind_ret.
  destruct (axios w i _) as [r|e]; simpl; by rewrite !app_nil_r.
Qed.

Lemma V2_executeRequest_sent w i rq ga h o m :
  prepareHeaders (headers rq) (req_auth rq) ga = (Normal h, o) →
  method rq = Some m →
  V2.executeRequest w i rq ga
  = (match axios w i {| c_method := toLowerCase m; c_url := url rq;
                        c_headers := h ∪ V2.COMMON_HEADERS;
                        c_data := body_or_null (body rq) |} with
     | Resolve r =>
         Normal {| V2.res_name := name rq; V2.res_status := "success";
                   V2.res_data := data r; V2.res_error := JUndefined;
                   V2.res_statusCode := status r;
                   V2.res_timeTaken :=
                     Some (toFixed2 (now w i AfterSettle - now w i AtEntry)) |}
     | Reject e => Normal (V2.error_result rq e)
     end, o).
Proof.
  intros Hh Hm.
  unfold V2.executeRequest, V2.attempt, V2.recover, method_toLowerCase.
  rewrite Hh, Hm. unfold bind at 1. rewrite bind_ret.
  destruct (axios w i _) as [r|e]; simpl; by rewrite !app_nil_r.
Qed.

(** X14: when the headers of a request are prepared and it has a method,
    the transport is called once, with the method in lower case, the url,
    the body (none when it is empty) and, in the first variant, exactly the
    prepared headers; in the second variant every prepared header and, for
    a key the request does not set, the common header.  The result is a
    success with the data (and, in the second variant, the status code) of
    the response, or the error object of the rejection. *)
Theorem request_sent_with_layered_headers w i rq ga h o m :
  prepareHeaders (headers rq) (req_auth rq) ga = (Normal h, o) →
  method rq = Some m →
  V1.executeRequest w i rq ga
  = (match axios w i {| c_method := toLowerCase m; c_url := url rq;
                        c_headers := h;
                        c_data := body_or_null (body rq) |} with
     | Resolve r =>
         Normal {| V1.res_name := name rq; V1.res_status := "success";
                   V1.res_data := data r; V1.res_error := JUndefined;
                   V1.res_timeTaken :=
                     Some (toFixed2 (now w i AfterSettle - now w i AtEntry)) |}
     | Reject e => Normal (V1.error_result w i rq (now w i AtEntry) e)
     end, o) ∧
  ∃ sent,
    (∀ k, sent !! k = match h !! k with
                      | Some v => Some v
                      | None => V2.COMMON_HEADERS !! k
                      end) ∧
    V2.executeRequest w i rq ga
    = (match axios w i {| c_method := toLowerCase m; c_url := url rq;
                          c_headers := sent;
                          c_data := body_or_null (body rq) |} with
       | Resolve r =>
           Normal {| V2.res_name := name rq; V2.res_status := "success";
                     V2.res_data := data r; V2.res_error := JUndefined;
                     V2.res_statusCode := status r;
                     V2.res_timeTaken :=
                       Some (toFixed2
                               (now w i AfterSettle - now w i AtEntry)) |}
       | Reject e => Normal (V2.error_result rq e)
       end, o).
Proof.
  intros Hh Hm. split; [by apply V1_executeRequest_sent|].
  exists (h ∪ V2.COMMON_HEADERS). split; [|by apply V2_executeRequest_sent].
  intros k. rewrite lookup_union.
  by destruct (h !! k), (V2.COMMON_HEADERS !! k).
Qed.

Lemma request_sent_with_layered_headers_witness :
  ∃ sent,
    sent !! "Content-Type" = Some "text/plain" ∧
    sent !! "Accept" = Some "*/*" ∧
    V2.executeRequest world3 0
      {| name := "Request 1"; method := Some "POST";
         url := "https://api.example.com/users";
         headers := [("Content-Type", "text/plain")];
         body := Some "hello"; req_auth := None |} None
    = (match axios world3 0
               {| c_method := "post";
                  c_url := "https://api.example.com/users";
                  c_headers := sent; c_data := Some "hello" |} with
       | Resolve r =>
           Normal {| V2.res_name := "Request 1"; V2.res_status := "success";
                     V2.res_data := data r; V2.res_error := JUndefined;
                     V2.res_statusCode := status r;
                     V2.res_timeTaken := Some 12345 |}
       | Reject e =>
           Normal (V2.error_result
                     {| name := "Request 1"; method := Some "POST";
                        url := "https://api.example.com/users";
                        headers := [("Content-Type", "text/plain")];
                        body := Some "hello"; req_auth := None |} e)
       end, []).
Proof.
  destruct (request_sent_with_layered_headers world3 0
              {| name := "Request 1"; method := Some "POST";
                 url := "https://api.example.com/users";
                 headers := [("Content-Type", "text/plain")];
                 body := Some "hello"; req_auth := None |} None
              (reduce_headers [("Content-Type", "text/plain")]) [] "POST"
              eq_refl eq_refl) as [_ (sent & Hsent & Hrun)].
  exists sent. split; [|split].
  - rewrite Hsent. reflexivity.
  - rewrite Hsent. reflexivity.
  - exact Hrun.
Defined.

Lemma V1_settled_value_local w w' i rq ga :
  (∀ c, axios w i c = axios w' i c) → (∀ p, now w i p = now w' i p) →
  V1.settled_value w i rq ga = V1.settled_value w' i rq ga.
Proof.
  intros Hax Hnow.
  unfold V1.settled_value, V1.attempt, V1.error_result.
  rewrite !Hnow.
  destruct (prepareHeaders _ _ _) as [[h|e] o]; [|done].
  destruct (method_toLowerCase rq) as [[m|e] o']; [|done].
  simpl. rewrite Hax. by destruct (axios w' i _).
Qed.

Lemma V2_settled_value_local w w' i rq ga :
  (∀ c, axios w i c = axios w' i c) → (∀ p, now w i p = now w' i p) →
  V2.settled_value w i rq ga = V2.settled_value w' i rq ga.
Proof.
  intros Hax Hnow.
  unfold V2.settled_value, V2.attempt.
  rewrite !Hnow.
  destruct (prepareHeaders _ _ _) as [[h|e] o]; [|done].
  destruct (method_toLowerCase rq) as [[m|e] o']; [|done].
  simpl. rewrite Hax. by destruct (axios w' i _).
Qed.

(** ** The batch coordinator, once more *)

(** X15: the result reported for a request depends on its own execution
    only: two runs of a batch in worlds that agree on what the transport
    answers to the i-th request and on what the clock shows during its
    execution report the same i-th result, whatever happens to the other
    requests and whatever the order of settlement. *)
Theorem result_depends_on_own_execution w w' requests ga i rq :
  every_promise_settles (order w) (length requests) →
  every_promise_settles (order w') (length requests) →
  requests !! i = Some rq →
  (∀ c, axios w i c = axios w' i c) → (∀ p, now w i p = now w' i p) →
  (∃ rep rep' out out' e,
     V1.runConcurrentRequests w requests ga = Some (Normal rep, out) ∧
     V1.runConcurrentRequests w' requests ga = Some (Normal rep', out') ∧
     V1.results rep !! i = Some e ∧ V1.results rep' !! i = Some e) ∧
  (∃ rep rep' out out' e,
     V2.runConcurrentRequests w requests ga = Some (Normal rep, out) ∧
     V2.runConcurrentRequests w' requests ga = Some (Normal rep', out') ∧
     V2.results rep !! i = Some e ∧ V2.results rep' !! i = Some e).
Proof.
  intros Hall Hall' Hi Hax Hnow. split.
  - destruct (V1_run_settled w requests ga Hall) as [out ->].
    destruct (V1_run_settled w' requests ga Hall') as [out' ->].
    eexists _, _, _, _, _. split; [done|]. split; [done|].
    rewrite !(V1_report_lookup _ _ _ _ _ Hi).
    by rewrite (V1_settled_value_local w w').
  - destruct (V2_run_settled w requests ga Hall) as [out ->].
    destruct (V2_run_settled w' requests ga Hall') as [out' ->].
    eexists _, _, _, _, _. split; [done|]. split; [done|].
    rewrite !(V2_report_lookup _ _ _ _ _ Hi).
    by rewrite (V2_settled_value_local w w').
Qed.

Lemma result_depends_on_own_execution_witness :
  ∃ rep rep' out out' e,
    V2.runConcurrentRequests world3 batch3 None = Some (Normal rep, out) ∧
    V2.runConcurrentRequests world3_down batch3 None
    = Some (Normal rep', out') ∧
    V2.results rep !! 0%nat = Some e ∧ V2.results rep' !! 0%nat = Some e.
Proof.
  destruct (result_depends_on_own_execution world3 world3_down batch3 None
              0%nat
              (get_request "Request 1" "https://api.example.com/users/1"))
    as [_ H].
  - intros i Hi. simpl in *. destruct i as [|[|[|i]]]; [set_solver..|lia].
  - intros i Hi. simpl in *. destruct i as [|[|[|i]]]; [set_solver..|lia].
  - reflexivity.
  - intros c. reflexivity.
  - intros p. reflexivity.
  - exact H.
Defined.

(** X16: a request with no method, or whose auth makes the preparation of
    the headers throw, is a failure that the transport has no part in: in
    the second variant the result is the same in every world, in the first
    variant in every world whose clock shows the same during the
    execution. *)
Theorem failure_before_transport w i rq ga :
  method rq = None ∨
  (∃ e o, prepareHeaders (headers rq) (req_auth rq) ga = (Throw e, o)) →
  (∃ v out,
     V1.executeRequest w i rq ga = (Normal v, out) ∧
     V1.res_status v = "error" ∧
     ∀ w', (∀ p, now w' i p = now w i p) →
           V1.executeRequest w' i rq ga = (Normal v, out)) ∧
  (∃ v out,
     V2.executeRequest w i rq ga = (Normal v, out) ∧
     V2.res_status v = "error" ∧
     ∀ w' j, V2.executeRequest w' j rq ga = (Normal v, out)).
Proof.
  intros Hfail.
  assert (Hthrow : ∃ e o,
    (∀ w' j t, V1.attempt w' j rq ga t = (Throw e, o)) ∧
    (∀ w' j t, V2.attempt w' j rq ga t = (Throw e, o))).
  { destruct Hfail as [Hm|(e & o & Hp)].
    - destruct (prepareHeaders (headers rq) (req_auth rq) ga)
        as [[h|e] o] eqn:Hp.
      + eexists _, _. split; intros w' j t;
          unfold V1.attempt, V2.attempt, method_toLowerCase;
          rewrite Hp, Hm; reflexivity.
      + eexists _, _. split; intros w' j t;
          unfold V1.attempt, V2.attempt; rewrite Hp; reflexivity.
    - eexists _, _. split; intros w' j t;
        unfold V1.attempt, V2.attempt; rewrite Hp; reflexivity. }
  destruct Hthrow as (e & o & H1 & H2). split.
  - eexists _, _. unfold V1.executeRequest. rewrite H1. simpl.
    split; [done|]. split; [done|].
    intros w' Hnow. rewrite H1. simpl. unfold V1.error_result.
    by rewrite !Hnow.
  - eexists _, _. unfold V2.executeRequest. rewrite H2. simpl.
    split; [done|]. split; [done|].
    intros w' j. by rewrite H2.
Qed.

Lemma failure_before_transport_witness :
  ∃ v out,
    V2.executeRequest world3 0
      {| name := "No method"; method := None; url := "https://example.com";
         headers := []; body := None; req_auth := None |} None
    = (Normal v, out) ∧
    V2.res_status v = "error" ∧
    V2.executeRequest world3_down 2
      {| name := "No method"; method := None; url := "https://example.com";
         headers := []; body := None; req_auth := None |} None
    = (Normal v, out).
Proof.
  destruct (failure_before_transport world3 0
              {| name := "No method"; method := None;
                 url := "https://example.com"; headers := []; body := None;
                 req_auth := None |} None (or_introl eq_refl))
    as [_ (v & out & Hrun & Hs & Hall)].
  exists v, out. split; [exact Hrun|]. split; [exact Hs|].
  apply Hall.
Defined.

Lemma length_filter_zip_with {A B C} (f : A → B → C)
    (P : C → Prop) (Q : B → Prop)
    `{∀ c, Decision (P c)} `{∀ b, Decision (Q b)} :
  (∀ a b, P (f a b) ↔ Q b) →
  ∀ la lb, length la = length lb →
           length (filter P (zip_with f la lb)) = length (filter Q lb).
Proof.
  intros HPQ la. induction la as [|a la IH]; intros [|b lb] Hlen;
    try done. simpl in Hlen. simpl zip_with.
  destruct (decide (Q b)) as [Hq|Hq].
  - rewrite (filter_cons_True P) by (by apply HPQ).
    rewrite (filter_cons_True Q) by done. simpl. f_equal. apply IH. lia.
  - rewrite (filter_cons_False P) by (by rewrite HPQ).
    rewrite (filter_cons_False Q) by done. apply IH. lia.
Qed.

Lemma V2_entry_of_status rq v :
  (V2.sum_status (V2.entry_of rq v) = "success" ↔ V2.is_success v) ∧
  (V2.sum_status (V2.entry_of rq v) = "error" ↔ ¬ V2.is_success v).
Proof.
  unfold V2.entry_of. destruct (V2.is_success v); simpl; split; split;
    try done; tauto.
Qed.

(** X17: in the second variant the number of successes of the summary is
    the number of results reported with status "success", the number of
    failures the number of those with status "error"; every result has one
    of the two, a success with its elapsed time and a failure with none. *)
Theorem V2_counts_by_status w requests ga :
  every_promise_settles (order w) (length requests) →
  ∃ rep out,
    V2.runConcurrentRequests w requests ga = Some (Normal rep, out) ∧
    V2.successCount rep
    = length (filter (λ e, V2.sum_status e = "success") (V2.results rep)) ∧
    V2.failureCount rep
    = length (filter (λ e, V2.sum_status e = "error") (V2.results rep)) ∧
    Forall (λ e, (V2.sum_status e = "success" ∧ is_Some (V2.sum_timeTaken e))
                 ∨ (V2.sum_status e = "error" ∧ V2.sum_timeTaken e = None))
           (V2.results rep).
Proof.
  intros Hall. destruct (V2_run_settled w requests ga Hall) as [out ->].
  eexists _, _. split; [done|].
  unfold V2.report_of.
  cbn [V2.results V2.successCount V2.failureCount].
  split; [|split].
  - symmetry. apply length_filter_zip_with; [|by rewrite length_imap].
    intros rq v. apply V2_entry_of_status.
  - symmetry. apply length_filter_zip_with; [|by rewrite length_imap].
    intros rq v. apply V2_entry_of_status.
  - apply Forall_lookup. intros i e Hi.
    rewrite lookup_zip_with in Hi.
    destruct (requests !! i) as [rq|] eqn:Hrq; [|done]. simpl in Hi.
    rewrite list_lookup_imap, Hrq in Hi. simpl in Hi. injection Hi as <-.
    unfold V2.entry_of.
    destruct (V2.is_success _) eqn:Hs; simpl; [left|by right].
    split; [done|]. rewrite V2_success_time by (by rewrite Hs). eauto.
Qed.

Lemma V2_counts_by_status_witness :
  ∃ rep out,
    V2.runConcurrentRequests world3 batch3 None = Some (Normal rep, out) ∧
    V2.successCount rep
    = length (filter (λ e, V2.sum_status e = "success") (V2.results rep)) ∧
    V2.failureCount rep
    = length (filter (λ e, V2.sum_status e = "error") (V2.results rep)).
Proof.
  destruct (V2_counts_by_status world3 batch3 None)
    as (rep & out & Hrun & Hs & Hf & _).
  - intros i Hi. simpl in *. destruct i as [|[|[|i]]]; [set_solver..|lia].
  - exists rep, out. split; [exact Hrun|]. split; [exact Hs|exact Hf].
Defined.

Lemma settle_slots_origin {A} (promises : list (settled A)) settle_order
    (slots : list (option (settled A))) j s :
  foldl (settle_slot promises) slots settle_order !! j = Some (Some s) →
  slots !! j = Some (Some s) ∨ j ∈ settle_order.
Proof.
  revert slots. induction settle_order as [|i o IH]; intros slots Hj;
    [by left|].
  simpl in Hj. apply IH in Hj as [Hj|Hj]; [|right; by right].
  unfold settle_slot in Hj. destruct (promises !! i) as [s'|]; [|by left].
  destruct (decide (i = j)) as [->|Hne]; [right; by left|].
  rewrite list_lookup_insert_ne in Hj by done. by left.
Qed.

Lemma allSettled_Some_settles {A} settle_order (promises rs : list (settled A)) :
  allSettled settle_order promises = Some rs →
  every_promise_settles settle_order (length promises).
Proof.
  unfold allSettled. intros H%mapM_Some_1 i Hi.
  pose proof (Forall2_length _ _ _ H) as Hlen.
  pose proof (settle_slots_sound promises settle_order _
                (replicate_None_sound promises)) as [Hlen' _].
  destruct (lookup_lt_is_Some_2 rs i) as [s Hs]; [lia|].
  destruct (Forall2_lookup_r _ _ _ _ _ H Hs) as (o & Ho & Hid).
  simpl in Hid. subst o.
  apply settle_slots_origin in Ho as [Ho|Ho]; [|done].
  apply lookup_replicate in Ho as [? _]. done.
Qed.

(** X18: the coordinator has no failure of its own: its [await] resumes
    exactly when every request promise settles, and then it completes with
    a report, never with an exception; a run of the same batch with another
    order of settlement that returns gives the same report. *)
Theorem coordinator_returns_iff_settled w requests ga :
  (is_Some (V1.runConcurrentRequests w requests ga)
   ↔ every_promise_settles (order w) (length requests)) ∧
  (is_Some (V2.runConcurrentRequests w requests ga)
   ↔ every_promise_settles (order w) (length requests)) ∧
  (∀ r, V1.runConcurrentRequests w requests ga = Some r →
        ∃ rep, r.1 = Normal rep ∧
               ∀ o r', V1.runConcurrentRequests (with_order w o) requests ga
                       = Some r' → r'.1 = Normal rep) ∧
  (∀ r, V2.runConcurrentRequests w requests ga = Some r →
        ∃ rep, r.1 = Normal rep ∧
               ∀ o r', V2.runConcurrentRequests (with_order w o) requests ga
                       = Some r' → r'.1 = Normal rep).
Proof.
  split; [|split; [|split]].
  - split.
    + intros [r Hr]. unfold V1.runConcurrentRequests in Hr.
      destruct (allSettled _ _) as [rs|] eqn:Hrs; [|done].
      apply allSettled_Some_settles in Hrs.
      by rewrite length_fmap, length_imap in Hrs.
    + intros Hall. destruct (V1_run_settled w requests ga Hall) as [out ->].
      eauto.
  - split.
    + intros [r Hr]. unfold V2.runConcurrentRequests in Hr.
      destruct (allSettled _ _) as [rs|] eqn:Hrs; [|done].
      apply allSettled_Some_settles in Hrs.
      by rewrite length_fmap, length_imap in Hrs.
    + intros Hall. destruct (V2_run_settled w requests ga Hall) as [out ->].
      eauto.
  - intros r Hr. exists (V1.report_of w requests ga).
    split; [by apply V1_run_inv|].
    intros o r' Hr'. by apply V1_run_inv in Hr'.
  - intros r Hr. exists (V2.report_of w requests ga).
    split; [by apply V2_run_inv|].
    intros o r' Hr'. by apply V2_run_inv in Hr'.
Qed.

Lemma coordinator_returns_iff_settled_witness :
  is_Some (V2.runConcurrentRequests world3 batch3 None) ∧
  ¬ is_Some (V2.runConcurrentRequests (with_order world3 [2; 0]%nat)
               batch3 None).
Proof.
  split.
  - apply (coordinator_returns_iff_settled world3 batch3 None).
    intros i Hi. simpl in *. destruct i as [|[|[|i]]]; [set_solver..|lia].
  - intros Hsome.
    apply (coordinator_returns_iff_settled (with_order world3 [2; 0]%nat)
             batch3 None) in Hsome.
    specialize (Hsome 1%nat). simpl in Hsome.
    assert (Hin : 1%nat ∈ [2; 0]%nat) by (apply Hsome; lia).
    repeat (apply elem_of_cons in Hin as [Hin|Hin]; [discriminate Hin|]).
    by apply elem_of_nil in Hin.
Defined.

(** ** The summary of the second variant *)

(** X19: in the second variant, for every batch whose requests all settle,
    the number of successes is the number of results reported as a success
    with an elapsed time, and the average of the summary is the arithmetic
    mean of these elapsed times, 0 when there is no success. *)
Theorem second_variant_average_is_mean w requests ga :
  every_promise_settles (order w) (length requests) →
  ∃ rep out,
    V2.runConcurrentRequests w requests ga = Some (Normal rep, out) ∧
    V2.successCount rep = length (V2.success_times (V2.results rep)) ∧
    V2.avgTime rep = Some (mean (V2.success_times (V2.results rep))) ∧
    (V2.successCount rep = 0%nat → V2.avgTime rep = Some 0%Q).
Proof. apply V2_average_is_mean. Qed.

Lemma second_variant_average_is_mean_witness :
  ∃ rep out,
    V2.runConcurrentRequests world3 batch3 None = Some (Normal rep, out) ∧
    V2.success_times (V2.results rep) = [12345; 6512] ∧
    V2.avgTime rep = Some (mean [12345; 6512]).
Proof.
  destruct (second_variant_average_is_mean world3 batch3 None)
    as (rep & out & Hrun & _ & Havg & _).
  - intros i Hi. simpl in *. destruct i as [|[|[|i]]]; [set_solver..|lia].
  - exists rep, out. split; [exact Hrun|].
    assert (Hrep : rep = V2.report_of world3 batch3 None).
    { apply V2_run_inv in Hrun. simpl in Hrun. congruence. }
    assert (Ht : V2.success_times (V2.results rep) = [12345; 6512])
      by (rewrite Hrep; vm_compute; reflexivity).
    split; [exact Ht|]. rewrite <-Ht. exact Havg.
Defined.

(** X20: in the second variant, a batch of three requests of which the
    second one alone fails gives three results in the order of the
    requests: the second an error without a time, the others a success,
    each with the elapsed time of its own execution; and the summary has 2
    successes and 1 failure. *)
Theorem second_variant_mixed_batch w r1 r2 r3 ga v1 v2 v3 o1 o2 o3 :
  every_promise_settles (order w) 3 →
  V2.executeRequest w 0 r1 ga = (Normal v1, o1) →
  V2.executeRequest w 1 r2 ga = (Normal v2, o2) →
  V2.executeRequest w 2 r3 ga = (Normal v3, o3) →
  V2.res_status v1 = "success" → V2.res_status v2 = "error" →
  V2.res_status v3 = "success" →
  ∃ rep out,
    V2.runConcurrentRequests w [r1; r2; r3] ga = Some (Normal rep, out) ∧
    V2.sum_name <$> V2.results rep = [name r1; name r2; name r3] ∧
    V2.sum_status <$> V2.results rep = ["success"; "error"; "success"] ∧
    V2.sum_timeTaken <$> V2.results rep
    = [Some (toFixed2 (now w 0 AfterSettle - now w 0 AtEntry)); None;
       Some (toFixed2 (now w 2 AfterSettle - now w 2 AtEntry))] ∧
    V2.successCount rep = 2%nat ∧ V2.failureCount rep = 1%nat.
Proof. apply V2_mixed_batch. Qed.

Lemma second_variant_mixed_batch_witness :
  ∃ rep out,
    V2.runConcurrentRequests world3 batch3 None = Some (Normal rep, out) ∧
    V2.sum_status <$> V2.results rep = ["success"; "error"; "success"] ∧
    V2.sum_timeTaken <$> V2.results rep = [Some 12345; None; Some 6512] ∧
    V2.successCount rep = 2%nat ∧ V2.failureCount rep = 1%nat.
Proof.
  destruct (second_variant_mixed_batch world3
              (get_request "Request 1" "https://api.example.com/users/1")
              (get_request "Request 2" "https://unreachable.example.com/")
              (get_request "Request 3" "https://api.example.com/users/2")
              None _ _ _ [] [] []
              ltac:(intros i Hi; simpl in *;
                    destruct i as [|[|[|i]]]; [set_solver..|lia])
              eq_refl eq_refl eq_refl eq_refl eq_refl eq_refl)
    as (rep & out & Hrun & _ & Hst & Ht & Hs & Hf).
  exists rep, out. split; [exact Hrun|]. split; [exact Hst|].
  split; [exact Ht|]. split; [exact Hs|exact Hf].
Defined.

(** X21: an empty batch gives, in both variants and in every world, a
    report with no result, zero requests, successes and failures, and an
    average of 0. *)
Theorem empty_batch_report w ga :
  V1.runConcurrentRequests w [] ga
  = Some (Normal {| V1.results := []; V1.totalRequests := 0;
                    V1.successCount := 0; V1.failureCount := 0;
                    V1.totalTime := batchEnd w - batchStart w;
                    V1.avgTime := Some 0%Q |}, []) ∧
  V2.runConcurrentRequests w [] ga
  = Some (Normal {| V2.results := []; V2.totalRequests := 0;
                    V2.successCount := 0; V2.failureCount := 0;
                    V2.totalTime := batchEnd w - batchStart w;
                    V2.avgTime := Some 0%Q |}, []).
Proof. apply empty_batch. Qed.

(** ** Base64 *)

Lemma base64_digit_checked :
  forallb (λ k, match base64_value (base64_digit k) with
                | Some j => N.eqb j k
                | None => false
                end && negb (Ascii.eqb (base64_digit k) "="))
          (map N.of_nat (seq 0 64)) = true.
Proof. vm_compute. reflexivity. Qed.

Lemma base64_digit_value n :
  (n < 64)%N →
  base64_value (base64_digit n) = Some n ∧
  Ascii.eqb (base64_digit n) "=" = false.
Proof.
  intros Hn. pose proof base64_digit_checked as Hall.
  rewrite forallb_forall in Hall.
  assert (Hin : In n (map N.of_nat (seq 0 64))).
  { apply in_map_iff. exists (N.to_nat n). split; [lia|].
    apply in_seq. lia. }
  apply Hall in Hin. apply andb_prop in Hin as [Hv Hp].
  destruct (base64_value (base64_digit n)) as [j|]; [|done].
  apply N.eqb_eq in Hv as ->. split; [done|].
  by apply negb_true_iff in Hp.
Qed.

Lemma sextets (a b c : N) :
  (a < 256 → b < 256 → c < 256 →
   (a / 4) * 4 + ((a mod 4) * 16 + b / 16) / 16 = a ∧
   (((a mod 4) * 16 + b / 16) mod 16) * 16
   + ((b mod 16) * 4 + c / 64) / 4 = b ∧
   (((b mod 16) * 4 + c / 64) mod 4) * 64 + c mod 64 = c ∧
   a / 4 < 64 ∧ (a mod 4) * 16 + b / 16 < 64 ∧
   (b mod 16) * 4 + c / 64 < 64 ∧ c mod 64 < 64)%N.
Proof.
  intros. repeat split; zify; Z.to_euclidean_division_equations; lia.
Qed.

Lemma sextets_one (a : N) :
  (a < 256 →
   (a / 4) * 4 + ((a mod 4) * 16) / 16 = a ∧
   a / 4 < 64 ∧ (a mod 4) * 16 < 64)%N.
Proof.
  intros. repeat split; zify; Z.to_euclidean_division_equations; lia.
Qed.

Lemma sextets_two (a b : N) :
  (a < 256 → b < 256 →
   (a / 4) * 4 + ((a mod 4) * 16 + b / 16) / 16 = a ∧
   (((a mod 4) * 16 + b / 16) mod 16) * 16 + ((b mod 16) * 4) / 4 = b ∧
   a / 4 < 64 ∧ (a mod 4) * 16 + b / 16 < 64 ∧ (b mod 16) * 4 < 64)%N.
Proof.
  intros. repeat split; zify; Z.to_euclidean_division_equations; lia.
Qed.

Lemma base64_bytes_decode bs :
  Forall (λ b, (b < 256)%N) bs →
  base64_decode_chars (base64_bytes bs) = Some bs.
Proof.
  remember (length bs) as n eqn:Hn. revert bs Hn.
  induction n as [n IH] using lt_wf_ind. intros bs Hn Hbs.
  destruct bs as [|a [|b [|c rest]]]; [done| | |].
  - apply Forall_cons in Hbs as [Ha _].
    destruct (sextets_one a Ha) as (E1 & L1 & L2).
    destruct (base64_digit_value _ L1) as [V1 _].
    destruct (base64_digit_value _ L2) as [V2 _].
    cbn [base64_bytes base64_decode_chars]. rewrite V1, V2. simpl.
    by rewrite E1.
  - apply Forall_cons in Hbs as [Ha [Hb _]%Forall_cons].
    destruct (sextets_two a b Ha Hb) as (E1 & E2 & L1 & L2 & L3).
    destruct (base64_digit_value _ L1) as [V1 _].
    destruct (base64_digit_value _ L2) as [V2 _].
    destruct (base64_digit_value _ L3) as [V3 P3].
    cbn [base64_bytes base64_decode_chars]. rewrite V1, V2. simpl.
    rewrite P3, V3. simpl. by rewrite E1, E2.
  - apply Forall_cons in Hbs as [Ha [Hb [Hc Hrest]%Forall_cons]%Forall_cons].
    destruct (sextets a b c Ha Hb Hc)
      as (E1 & E2 & E3 & L1 & L2 & L3 & L4).
    destruct (base64_digit_value _ L1) as [V1 _].
    destruct (base64_digit_value _ L2) as [V2 _].
    destruct (base64_digit_value _ L3) as [V3 P3].
    destruct (base64_digit_value _ L4) as [V4 P4].
    cbn [base64_bytes base64_decode_chars]. rewrite V1, V2. simpl.
    rewrite P3, V3. simpl. rewrite P4, V4. simpl.
    rewrite (IH (length rest)) by (simpl in Hn; (lia || done)). simpl.
    by rewrite E1, E2, E3.
Qed.

Lemma bytes_of_string_bounded s :
  Forall (λ b, (b < 256)%N) (map N_of_ascii (list_ascii_of_string s)).
Proof.
  induction s as [|c s IH]; simpl; constructor; [|done].
  apply N_ascii_bounded.
Qed.

Lemma string_of_bytes_of_string s :
  string_of_list_ascii
    (map ascii_of_N (map N_of_ascii (list_ascii_of_string s))) = s.
Proof.
  induction s as [|c s IH]; simpl; [done|].
  by rewrite ascii_N_embedding, IH.
Qed.

(** X22: base64 can be read back: decoding the text that [base64] gives for
    a string gives the string, so that two different strings of
    credentials never give the same Basic header. *)
Theorem base64_round_trip s s' :
  base64_decode (base64 s) = Some s ∧
  ("Basic " +:+ base64 s = "Basic " +:+ base64 s' → s = s').
Proof.
  assert (Hrt : ∀ t, base64_decode (base64 t) = Some t).
  { intros t. unfold base64_decode, base64.
    rewrite list_ascii_of_string_of_list_ascii.
    rewrite base64_bytes_decode by apply bytes_of_string_bounded.
    simpl. by rewrite string_of_bytes_of_string. }
  split; [apply Hrt|].
  intros H%(inj (String.app "Basic ")).
  apply (f_equal base64_decode) in H.
  rewrite !Hrt in H. congruence.
Qed.

Lemma base64_round_trip_witness :
  base64_decode "dTpw" = Some "u:p".
Proof. exact (proj1 (base64_round_trip "u:p" "u:p")). Defined.
